(** * Sequence-number statistics and sent-packet history

    A shallow embedding of
    [libraries/networking/src/SequenceNumberStats.cpp] and
    [libraries/networking/src/SentPacketHistory.{h,cpp}].

    Conventions of the embedding:
    - a [quint16] / [uint16_t] is a [Z] in [0, 65536); every conversion to
      that type in the source is written out as [to_quint16];
    - an [int] is a [Z]: the sums and differences the source forms from
      16-bit numbers, slot indices and the ring size do not overflow;
    - [QSet<quint16>] is a [gset Z];
    - [QVector<QByteArray>] is a [list QByteArray], indexed through stdpp's
      lookup and insert, with the out-of-range case made explicit;
    - [qDebug()] output and the [wantExtraDebugging] flag, which only guards
      such output, are not part of the model. *)

From Stdlib Require Import ZArith String Lia.
From stdpp Require Import base decidable numbers option list gmap sets.

Local Open Scope Z_scope.

(** ** Shared 16-bit arithmetic *)

(** [std::numeric_limits<uint16_t>::max() + 1]. *)
Definition UINT16_RANGE : Z := 65536.

(** [std::numeric_limits<quint16>::max()]. *)
Definition QUINT16_MAX : Z := 65535.

(** Conversion of an [int] to [quint16]: reduction modulo 2^16. *)
Definition to_quint16 (x : Z) : Z := x mod UINT16_RANGE.

(** The values a [quint16] variable can hold. *)
Definition is_quint16 (x : Z) : Prop := 0 <= x < UINT16_RANGE.

(** Closed arithmetic side conditions. *)
Ltac by_computation :=
  vm_compute; repeat split;
  first [reflexivity | discriminate | intro; discriminate].

(** ** SequenceNumberStats *)

Module SequenceNumberStats.

(** A [QUuid] is an opaque 128-bit identity; the default-constructed one is
    the null identity. *)
Definition QUuid : Type := N.
Definition nullUuid : QUuid := 0%N.

(** Modelled from the spec: the fields of the object are declared in
    SequenceNumberStats.h, which is not embedded here.  [_lastReceived] is
    a [quint16] and [_missingSet] a [QSet<quint16>], as the assignments to
    them in SequenceNumberStats.cpp show; the seven counters are what the
    spec calls monotonic non-negative integers, and are unbounded integers
    here, so that a decrement below zero would show. *)
Record t : Type := mk {
  _lastReceived : Z;
  _missingSet : gset Z;
  _numReceived : Z;
  _numUnreasonable : Z;
  _numEarly : Z;
  _numLate : Z;
  _numLost : Z;
  _numRecovered : Z;
  _numDuplicate : Z;
  _lastSenderUUID : QUuid
}.

(** [SequenceNumberStats::SequenceNumberStats()]. *)
Definition create : t :=
  {| _lastReceived := QUINT16_MAX;
     _missingSet := ∅;
     _numReceived := 0;
     _numUnreasonable := 0;
     _numEarly := 0;
     _numLate := 0;
     _numLost := 0;
     _numRecovered := 0;
     _numDuplicate := 0;
     _lastSenderUUID := nullUuid |}.

(** [SequenceNumberStats::reset()]: the set and the seven counters;
    [_lastReceived] and [_lastSenderUUID] are not assigned. *)
Definition reset (s : t) : t :=
  {| _lastReceived := _lastReceived s;
     _missingSet := ∅;
     _numReceived := 0;
     _numUnreasonable := 0;
     _numEarly := 0;
     _numLate := 0;
     _numLost := 0;
     _numRecovered := 0;
     _numDuplicate := 0;
     _lastSenderUUID := _lastSenderUUID s |}.

(** Single-field assignments. *)
Definition set_lastReceived (v : Z) (s : t) : t :=
  mk v (_missingSet s) (_numReceived s) (_numUnreasonable s) (_numEarly s)
     (_numLate s) (_numLost s) (_numRecovered s) (_numDuplicate s)
     (_lastSenderUUID s).
Definition set_missingSet (v : gset Z) (s : t) : t :=
  mk (_lastReceived s) v (_numReceived s) (_numUnreasonable s) (_numEarly s)
     (_numLate s) (_numLost s) (_numRecovered s) (_numDuplicate s)
     (_lastSenderUUID s).
Definition set_numReceived (v : Z) (s : t) : t :=
  mk (_lastReceived s) (_missingSet s) v (_numUnreasonable s) (_numEarly s)
     (_numLate s) (_numLost s) (_numRecovered s) (_numDuplicate s)
     (_lastSenderUUID s).
Definition set_numUnreasonable (v : Z) (s : t) : t :=
  mk (_lastReceived s) (_missingSet s) (_numReceived s) v (_numEarly s)
     (_numLate s) (_numLost s) (_numRecovered s) (_numDuplicate s)
     (_lastSenderUUID s).
Definition set_numEarly (v : Z) (s : t) : t :=
  mk (_lastReceived s) (_missingSet s) (_numReceived s) (_numUnreasonable s) v
     (_numLate s) (_numLost s) (_numRecovered s) (_numDuplicate s)
     (_lastSenderUUID s).
Definition set_numLate (v : Z) (s : t) : t :=
  mk (_lastReceived s) (_missingSet s) (_numReceived s) (_numUnreasonable s)
     (_numEarly s) v (_numLost s) (_numRecovered s) (_numDuplicate s)
     (_lastSenderUUID s).
Definition set_numLost (v : Z) (s : t) : t :=
  mk (_lastReceived s) (_missingSet s) (_numReceived s) (_numUnreasonable s)
     (_numEarly s) (_numLate s) v (_numRecovered s) (_numDuplicate s)
     (_lastSenderUUID s).
Definition set_numRecovered (v : Z) (s : t) : t :=
  mk (_lastReceived s) (_missingSet s) (_numReceived s) (_numUnreasonable s)
     (_numEarly s) (_numLate s) (_numLost s) v (_numDuplicate s)
     (_lastSenderUUID s).
Definition set_numDuplicate (v : Z) (s : t) : t :=
  mk (_lastReceived s) (_missingSet s) (_numReceived s) (_numUnreasonable s)
     (_numEarly s) (_numLate s) (_numLost s) (_numRecovered s) v
     (_lastSenderUUID s).
Definition set_lastSenderUUID (v : QUuid) (s : t) : t :=
  mk (_lastReceived s) (_missingSet s) (_numReceived s) (_numUnreasonable s)
     (_numEarly s) (_numLate s) (_numLost s) (_numRecovered s)
     (_numDuplicate s) v.

(** Normalisation of a chain of field assignments and reads. *)
Ltac fields :=
  cbn [set_lastReceived set_missingSet set_numReceived set_numUnreasonable
       set_numEarly set_numLate set_numLost set_numRecovered set_numDuplicate
       set_lastSenderUUID reset
       _lastReceived _missingSet _numReceived _numUnreasonable _numEarly
       _numLate _numLost _numRecovered _numDuplicate _lastSenderUUID] in *.

Section WithGap.

(** [MAX_REASONABLE_SEQUENCE_GAP], an [int] constant declared in
    SequenceNumberStats.h, which is not embedded here: its value is a
    parameter of the development. *)
Variable MAX_REASONABLE_SEQUENCE_GAP : Z.

(** The two erase loops of [pruneMissingSet] each keep the entries that fail
    the erase test. *)
Definition pruneMissingSet (s : t) : t :=
  let cutoff := _lastReceived s - MAX_REASONABLE_SEQUENCE_GAP in
  if 0 <=? cutoff then
    let nonRolloverCutoff := to_quint16 cutoff in
    set_missingSet
      (filter (λ missing,
         ¬ (missing > _lastReceived s ∨ missing < nonRolloverCutoff))
         (_missingSet s)) s
  else
    let rolloverCutoff := to_quint16 (cutoff + UINT16_RANGE) in
    set_missingSet
      (filter (λ missing,
         ¬ (missing > _lastReceived s ∧ missing < rolloverCutoff))
         (_missingSet s)) s.

(** The loop
    [for (missingInt = expectedInt; missingInt < incomingInt; missingInt++)]
    with [n] iterations left. *)
Fixpoint insertSkipped (n : nat) (missingInt : Z) (set : gset Z) : gset Z :=
  match n with
  | O => set
  | S n' =>
      insertSkipped n' (missingInt + 1)
        ({[ to_quint16 (if missingInt <? 0 then missingInt + UINT16_RANGE
                        else missingInt) ]} ∪ set)
  end.

(** The sender check at the head of [sequenceNumberReceived]. *)
Definition senderCheck (senderUUID : QUuid) (s : t) : t :=
  if decide (senderUUID ≠ _lastSenderUUID s) then
    set_lastSenderUUID senderUUID (reset s)
  else s.

(** [quint16 expected = _numReceived > 0 ? _lastReceived + (quint16)1 : incoming]. *)
Definition expectedOf (incoming : Z) (s : t) : Z :=
  if 0 <? _numReceived s then to_quint16 (_lastReceived s + 1) else incoming.

(** The code after the rollover correction: [incomingInt] and [expectedInt]
    are compared directly and the packet is counted as early or late. *)
Definition classify (incoming incomingInt expectedInt : Z) (s : t) : t :=
  if expectedInt <? incomingInt then
    let s := set_numEarly (_numEarly s + 1) s in
    let s := set_numLost (_numLost s + (incomingInt - expectedInt)) s in
    let s := set_lastReceived incoming s in
    let s :=
      set_missingSet
        (insertSkipped (Z.to_nat (incomingInt - expectedInt)) expectedInt
           (_missingSet s)) s in
    if MAX_REASONABLE_SEQUENCE_GAP <? Z.of_nat (size (_missingSet s))
    then pruneMissingSet s else s
  else
    let s := set_numLate (_numLate s + 1) s in
    if decide (incoming ∈ _missingSet s) then
      let s := set_missingSet (_missingSet s ∖ {[ incoming ]}) s in
      let s := set_numLost (_numLost s - 1) s in
      set_numRecovered (_numRecovered s + 1) s
    else
      set_numDuplicate (_numDuplicate s + 1) s.

(** The out-of-order branch, entered with [_numReceived] already
    incremented. *)
Definition outOfOrder (incoming expected : Z) (s : t) : t :=
  let incomingInt := incoming in
  let expectedInt := expected in
  let absGap := Z.abs (incomingInt - expectedInt) in
  if UINT16_RANGE - MAX_REASONABLE_SEQUENCE_GAP <=? absGap then
    if expectedInt <? incomingInt
    then classify incoming (incomingInt - UINT16_RANGE) expectedInt s
    else classify incoming incomingInt (expectedInt - UINT16_RANGE) s
  else if MAX_REASONABLE_SEQUENCE_GAP <? absGap then
    set_numUnreasonable (_numUnreasonable s + 1) s
  else classify incoming incomingInt expectedInt s.

(** [SequenceNumberStats::sequenceNumberReceived(incoming, senderUUID)]. *)
Definition sequenceNumberReceived (incoming : Z) (senderUUID : QUuid) (s : t) : t :=
  let s := senderCheck senderUUID s in
  let expected := expectedOf incoming s in
  let s := set_numReceived (_numReceived s + 1) s in
  if incoming =? expected then set_lastReceived incoming s
  else outOfOrder incoming expected s.

(** Feeding a list of sequence numbers from one sender, oldest first. *)
Definition receiveAll (senderUUID : QUuid) (l : list Z) (s : t) : t :=
  foldl (λ s incoming, sequenceNumberReceived incoming senderUUID s) s l.

(** States reachable from a freshly constructed object by calls of
    [sequenceNumberReceived] with [quint16] arguments. *)
Inductive reachable : t → Prop :=
  | reachable_create : reachable create
  | reachable_received s incoming senderUUID :
      reachable s → is_quint16 incoming →
      reachable (sequenceNumberReceived incoming senderUUID s).

(** The entries the spec says pruning discards, for a last received number
    [lastReceived]: with [cutoff = lastReceived - MAX_REASONABLE_SEQUENCE_GAP]
    as a plain integer, those greater than [lastReceived] or less than
    [cutoff] when [cutoff] is not negative, and those strictly between
    [lastReceived] and [cutoff + 65536] when it is. *)
Definition discardedBySpec (lastReceived missing : Z) : Prop :=
  let cutoff := lastReceived - MAX_REASONABLE_SEQUENCE_GAP in
  (0 <= cutoff ∧ (lastReceived < missing ∨ missing < cutoff)) ∨
  (cutoff < 0 ∧ lastReceived < missing ∧ missing < cutoff + UINT16_RANGE).

(** All seven counters are non-negative. *)
Definition countersNonNegative (s : t) : Prop :=
  0 <= _numReceived s ∧ 0 <= _numUnreasonable s ∧ 0 <= _numEarly s ∧
  0 <= _numLate s ∧ 0 <= _numLost s ∧ 0 <= _numRecovered s ∧
  0 <= _numDuplicate s.

(** None of the six counters other than [_numLost] is smaller in [s'] than
    in [s]. *)
Definition countersGrow (s s' : t) : Prop :=
  _numReceived s <= _numReceived s' ∧
  _numUnreasonable s <= _numUnreasonable s' ∧
  _numEarly s <= _numEarly s' ∧
  _numLate s <= _numLate s' ∧
  _numRecovered s <= _numRecovered s' ∧
  _numDuplicate s <= _numDuplicate s'.

(** The invariant: the counters are non-negative and [_numLost] is at least
    the number of entries of the missing set. *)
Definition accounted (s : t) : Prop :=
  countersNonNegative s ∧ Z.of_nat (size (_missingSet s)) <= _numLost s.

End WithGap.

(** [n] sequence numbers in sending order, from [start] on, wrapping from
    65535 to 0. *)
Fixpoint countUp (n : nat) (start : Z) : list Z :=
  match n with
  | O => []
  | S n' => start :: countUp n' (to_quint16 (start + 1))
  end.

(** How the counters add up: every late packet is either recovered or a
    duplicate, every unreasonable, early or late packet was received, and
    every early packet was counted with at least one lost number. *)
Definition tallied (s : t) : Prop :=
  _numLate s = _numRecovered s + _numDuplicate s ∧
  _numUnreasonable s + _numEarly s + _numLate s <= _numReceived s ∧
  _numEarly s <= _numLost s + _numRecovered s.

(** How one call moves [_numLost] and [_numRecovered] between [s] and [s']:
    when the call counts the incoming number late and the number is in the
    missing set, [_numLost] drops by exactly one and [_numRecovered] grows
    by exactly one; in every other case [_numLost] does not drop and
    [_numRecovered] stays. *)
Definition lostStep (incoming : Z) (s s' : t) : Prop :=
  (_numLate s' = _numLate s + 1 ∧ incoming ∈ _missingSet s →
   _numLost s' = _numLost s - 1 ∧ _numRecovered s' = _numRecovered s + 1) ∧
  (¬ (_numLate s' = _numLate s + 1 ∧ incoming ∈ _missingSet s) →
   _numLost s <= _numLost s' ∧ _numRecovered s' = _numRecovered s).

(** The 16-bit fields hold 16-bit values. *)
Definition inRange (s : t) : Prop :=
  is_quint16 (_lastReceived s) ∧ ∀ missing, missing ∈ _missingSet s → is_quint16 missing.

End SequenceNumberStats.

(** ** SentPacketHistory *)

Module SentPacketHistory.

(** A [QByteArray] payload. *)
Definition QByteArray : Type := string.

(** The result of an operation that indexes the vector: [QVector::operator[]]
    and [QVector::at] assert that the index is in range. *)
Inductive outcome (A : Type) : Type :=
  | Done (a : A)
  | IndexOutOfRange.
Arguments Done {A} a.
Arguments IndexOutOfRange {A}.

(** The private members of [class SentPacketHistory]. *)
Record t : Type := mk {
  _sentPackets : list QByteArray;
  _newestPacketAt : Z;
  _numExistingPackets : Z;
  _newestSequenceNumber : Z
}.

(** [_sentPackets.size()]. *)
Definition size (h : t) : Z := Z.of_nat (length (_sentPackets h)).

(** [SentPacketHistory::SentPacketHistory(int size)]: a vector of [size]
    empty byte arrays, for a [size] that is not negative. *)
Definition create (size : Z) : t :=
  {| _sentPackets := replicate (Z.to_nat size) EmptyString;
     _newestPacketAt := 0;
     _numExistingPackets := 0;
     _newestSequenceNumber := QUINT16_MAX |}.

(** [SentPacketHistory::packetSent(sequenceNumber, packet)]. *)
Definition packetSent (sequenceNumber : Z) (packet : QByteArray) (h : t) : outcome t :=
  let newestPacketAt :=
    if _newestPacketAt h =? size h - 1 then 0 else _newestPacketAt h + 1 in
  if (0 <=? newestPacketAt) && (newestPacketAt <? size h) then
    Done {| _sentPackets := <[Z.to_nat newestPacketAt := packet]> (_sentPackets h);
            _newestPacketAt := newestPacketAt;
            _numExistingPackets :=
              if _numExistingPackets h <? size h
              then _numExistingPackets h + 1 else _numExistingPackets h;
            _newestSequenceNumber := sequenceNumber |}
  else IndexOutOfRange.

(** [SentPacketHistory::getPacket(sequenceNumber)]: [Done None] is the
    [NULL] result, [Done (Some p)] a pointer to the stored packet [p]. *)
Definition getPacket (sequenceNumber : Z) (h : t) : outcome (option QByteArray) :=
  let seqDiff := _newestSequenceNumber h - sequenceNumber in
  let seqDiff := if seqDiff <? 0 then seqDiff + UINT16_RANGE else seqDiff in
  if _numExistingPackets h <=? seqDiff then Done None
  else
    let packetAt := _newestPacketAt h - seqDiff in
    let packetAt := if packetAt <? 0 then packetAt + size h else packetAt in
    if 0 <=? packetAt then
      match _sentPackets h !! Z.to_nat packetAt with
      | Some p => Done (Some p)
      | None => IndexOutOfRange
      end
    else IndexOutOfRange.

(** A run of [packetSent] calls, oldest first; it stops at the first call
    that indexes out of range. *)
Fixpoint sendAll (calls : list (Z * QByteArray)) (h : t) : outcome t :=
  match calls with
  | [] => Done h
  | (sequenceNumber, packet) :: calls' =>
      match packetSent sequenceNumber packet h with
      | Done h' => sendAll calls' h'
      | IndexOutOfRange => IndexOutOfRange
      end
  end.

(** The calls pass consecutive sequence numbers: each is a [quint16], and
    each call after the first passes the successor of the previous one. *)
Fixpoint consecutive (calls : list (Z * QByteArray)) : Prop :=
  match calls with
  | [] => True
  | (n, _) :: calls' =>
      is_quint16 n ∧
      match calls' with
      | [] => True
      | (n', _) :: _ => n' = to_quint16 (n + 1)
      end ∧ consecutive calls'
  end.

(** The spec's ring distance: [newest - older] modulo 65536. *)
Definition ringDistance (newest older : Z) : Z := (newest - older) mod UINT16_RANGE.

(** The spec's ring-safe slot subtraction: [steps] slots back from [slot] in
    a ring of [n] slots. *)
Definition slotBack (n slot steps : Z) : Z := (slot - steps) mod n.

(** The class invariant of a history with at least one slot. *)
Definition wellFormed (h : t) : Prop :=
  0 <= _newestPacketAt h < size h ∧
  0 <= _numExistingPackets h <= size h ∧
  is_quint16 (_newestSequenceNumber h).

(** What a history of [C] slots holds after the calls [hist], newest
    first: the [j]-th newest payload lies [j] slots back from the newest
    slot, for every [j] below the number of live packets. *)
Definition records (C : Z) (hist : list (Z * QByteArray)) (h : t) : Prop :=
  size h = C ∧
  0 <= _newestPacketAt h < C ∧
  _numExistingPackets h = Z.min (Z.of_nat (length hist)) C ∧
  (∀ j, 0 <= j < _numExistingPackets h →
     _sentPackets h !! Z.to_nat (slotBack C (_newestPacketAt h) j)
     = snd <$> hist !! Z.to_nat j) ∧
  _newestSequenceNumber h
  = match hist with [] => QUINT16_MAX | (n, _) :: _ => n end.

(** The slot [packetSent] writes: the one after the newest, cyclically. *)
Definition nextSlot (h : t) : Z :=
  if _newestPacketAt h =? size h - 1 then 0 else _newestPacketAt h + 1.

(** States reachable from a constructed history of [C] slots by
    [packetSent] calls with [uint16_t] numbers, consecutive or not; [hist]
    lists the calls made, newest first. *)
Inductive sentSoFar (C : Z) : list (Z * QByteArray) → t → Prop :=
  | sentSoFar_create : sentSoFar C [] (create C)
  | sentSoFar_packetSent hist h sequenceNumber packet h' :
      sentSoFar C hist h → is_quint16 sequenceNumber →
      packetSent sequenceNumber packet h = Done h' →
      sentSoFar C ((sequenceNumber, packet) :: hist) h'.

End SentPacketHistory.

(** * Properties of SequenceNumberStats *)

Section StatsFacts.

Import SequenceNumberStats.

Variable G : Z.

Lemma senderCheck_same senderUUID s :
  senderUUID = _lastSenderUUID s → senderCheck senderUUID s = s.
Proof. intros ->. unfold senderCheck. case_decide; [congruence | done]. Qed.

Lemma senderCheck_changed senderUUID s :
  senderUUID ≠ _lastSenderUUID s →
  senderCheck senderUUID s = set_lastSenderUUID senderUUID (reset s).
Proof. intros Hne. unfold senderCheck. case_decide; [done | contradiction]. Qed.

(** The first call on a fresh object makes the incoming number the
    baseline, whoever the sender is. *)
Lemma received_create incoming senderUUID :
  sequenceNumberReceived G incoming senderUUID create
  = mk incoming ∅ 1 0 0 0 0 0 0 senderUUID.
Proof.
  unfold sequenceNumberReceived, senderCheck.
  case_decide as Hs; cbn.
  - by rewrite Z.eqb_refl.
  - rewrite Z.eqb_refl. cbn in Hs. by rewrite Hs.
Qed.

(** On-time arrival from the stored sender. *)
Lemma received_on_time incoming senderUUID s :
  senderUUID = _lastSenderUUID s →
  incoming = expectedOf incoming s →
  sequenceNumberReceived G incoming senderUUID s
  = set_lastReceived incoming (set_numReceived (_numReceived s + 1) s).
Proof.
  intros Hs He. unfold sequenceNumberReceived.
  rewrite senderCheck_same by done. cbn zeta.
  rewrite <- He, Z.eqb_refl. done.
Qed.

(** Out-of-order arrival from the stored sender. *)
Lemma received_out_of_order incoming senderUUID s :
  senderUUID = _lastSenderUUID s →
  incoming ≠ expectedOf incoming s →
  sequenceNumberReceived G incoming senderUUID s
  = outOfOrder G incoming (expectedOf incoming s)
      (set_numReceived (_numReceived s + 1) s).
Proof.
  intros Hs He. unfold sequenceNumberReceived.
  rewrite senderCheck_same by done. cbn zeta.
  destruct (Z.eqb_spec incoming (expectedOf incoming s)); [contradiction | done].
Qed.

(** No rollover correction and a gap within the bound: the packet goes to
    [classify] with both numbers as received. *)
Lemma outOfOrder_plain incoming expected s :
  Z.abs (incoming - expected) < UINT16_RANGE - G →
  Z.abs (incoming - expected) <= G →
  outOfOrder G incoming expected s = classify G incoming incoming expected s.
Proof.
  intros H1 H2. unfold outOfOrder. cbn zeta.
  destruct (Z.leb_spec (UINT16_RANGE - G) (Z.abs (incoming - expected))); [lia |].
  destruct (Z.ltb_spec G (Z.abs (incoming - expected))); [lia | done].
Qed.

(** The three outcomes of [classify], as explicit states. *)
Lemma classify_early incoming incomingInt expectedInt s :
  expectedInt < incomingInt →
  Z.of_nat (size (insertSkipped (Z.to_nat (incomingInt - expectedInt))
                    expectedInt (_missingSet s))) <= G →
  classify G incoming incomingInt expectedInt s
  = mk incoming
       (insertSkipped (Z.to_nat (incomingInt - expectedInt)) expectedInt
          (_missingSet s))
       (_numReceived s) (_numUnreasonable s) (_numEarly s + 1) (_numLate s)
       (_numLost s + (incomingInt - expectedInt)) (_numRecovered s)
       (_numDuplicate s) (_lastSenderUUID s).
Proof.
  intros Hlt Hsz. unfold classify.
  destruct (Z.ltb_spec expectedInt incomingInt); [| lia].
  fields.
  destruct (Z.ltb_spec G (Z.of_nat (size (insertSkipped
    (Z.to_nat (incomingInt - expectedInt)) expectedInt (_missingSet s)))));
    [lia | reflexivity].
Qed.

Lemma classify_recovered incoming incomingInt expectedInt s :
  incomingInt <= expectedInt →
  incoming ∈ _missingSet s →
  classify G incoming incomingInt expectedInt s
  = mk (_lastReceived s) (_missingSet s ∖ {[ incoming ]})
       (_numReceived s) (_numUnreasonable s) (_numEarly s) (_numLate s + 1)
       (_numLost s - 1) (_numRecovered s + 1)
       (_numDuplicate s) (_lastSenderUUID s).
Proof.
  intros Hle Hin. unfold classify.
  destruct (Z.ltb_spec expectedInt incomingInt); [lia |].
  fields. case_decide; [reflexivity | contradiction].
Qed.

Lemma classify_duplicate incoming incomingInt expectedInt s :
  incomingInt <= expectedInt →
  incoming ∉ _missingSet s →
  classify G incoming incomingInt expectedInt s
  = mk (_lastReceived s) (_missingSet s)
       (_numReceived s) (_numUnreasonable s) (_numEarly s) (_numLate s + 1)
       (_numLost s) (_numRecovered s)
       (_numDuplicate s + 1) (_lastSenderUUID s).
Proof.
  intros Hle Hin. unfold classify.
  destruct (Z.ltb_spec expectedInt incomingInt); [lia |].
  fields. case_decide; [contradiction | reflexivity].
Qed.

End StatsFacts.

Section StatsInvariant.

Import SequenceNumberStats.

Variable G : Z.

(** Each iteration of the insertion loop adds at most one entry. *)
Lemma size_insert_le (x : Z) (set : gset Z) :
  (size ({[x]} ∪ set) ≤ S (size set))%nat.
Proof.
  destruct (decide (x ∈ set)) as [Hin | Hout].
  - rewrite (subseteq_union_1_L {[x]} set) by (by apply singleton_subseteq_l).
    lia.
  - rewrite size_union by (by apply disjoint_singleton_l).
    rewrite size_singleton. lia.
Qed.

Lemma size_insertSkipped n missingInt (set : gset Z) :
  (size (insertSkipped n missingInt set) ≤ size set + n)%nat.
Proof.
  revert missingInt set. induction n as [| n IH]; intros missingInt set; cbn.
  - lia.
  - etransitivity; [apply IH |].
    pose proof (size_insert_le
      (to_quint16 (if missingInt <? 0 then missingInt + UINT16_RANGE
                   else missingInt)) set).
    lia.
Qed.

(** Pruning changes the missing set only, and only shrinks it. *)
Lemma pruneMissingSet_frame s :
  pruneMissingSet G s = set_missingSet (_missingSet (pruneMissingSet G s)) s.
Proof. unfold pruneMissingSet. by destruct (0 <=? _lastReceived s - G). Qed.

Lemma pruneMissingSet_subseteq s :
  _missingSet (pruneMissingSet G s) ⊆ _missingSet s.
Proof.
  unfold pruneMissingSet.
  destruct (0 <=? _lastReceived s - G); fields;
    intros x Hx; apply elem_of_filter in Hx; tauto.
Qed.

Lemma pruneMissingSet_size s :
  (size (_missingSet (pruneMissingSet G s)) ≤ size (_missingSet s))%nat.
Proof. apply subseteq_size, pruneMissingSet_subseteq. Qed.

Lemma accounted_create : accounted create.
Proof.
  unfold accounted, countersNonNegative. cbn.
  rewrite size_empty. repeat split; lia.
Qed.

Lemma accounted_senderCheck senderUUID s :
  accounted s → accounted (senderCheck senderUUID s).
Proof.
  intros Hs. unfold senderCheck. case_decide; [| done].
  unfold accounted, countersNonNegative. cbn.
  rewrite size_empty. repeat split; lia.
Qed.

Lemma accounted_classify incoming incomingInt expectedInt s :
  accounted s → accounted (classify G incoming incomingInt expectedInt s).
Proof.
  intros (Hc & Hl). unfold countersNonNegative in Hc. unfold classify.
  destruct (Z.ltb_spec expectedInt incomingInt) as [Hlt | Hge].
  - fields.
    pose proof (size_insertSkipped (Z.to_nat (incomingInt - expectedInt))
                  expectedInt (_missingSet s)) as Hsz.
    match goal with |- accounted (if ?b then _ else _) => destruct b end.
    + rewrite pruneMissingSet_frame.
      match goal with |- context [pruneMissingSet G ?u] =>
        pose proof (pruneMissingSet_size u) as Hp end.
      unfold accounted, countersNonNegative. fields. repeat split; lia.
    + unfold accounted, countersNonNegative. fields. repeat split; lia.
  - fields. case_decide as Hin.
    + pose proof (size_difference (_missingSet s) {[incoming]}) as Hd.
      rewrite size_singleton in Hd.
      assert (size (_missingSet s) ≠ 0%nat).
      { intros Hz. apply size_empty_inv in Hz.
        apply (not_elem_of_empty (C := gset Z) incoming). by rewrite <- Hz. }
      unfold accounted, countersNonNegative. fields.
      rewrite Hd by (by apply singleton_subseteq_l). repeat split; lia.
    + unfold accounted, countersNonNegative. fields. repeat split; lia.
Qed.

Lemma accounted_outOfOrder incoming expected s :
  accounted s → accounted (outOfOrder G incoming expected s).
Proof.
  intros Hs. unfold outOfOrder. cbn zeta.
  repeat match goal with |- accounted (if ?b then _ else _) => destruct b end;
    try by apply accounted_classify.
  destruct Hs as (Hc & Hl). unfold countersNonNegative in Hc.
  unfold accounted, countersNonNegative. fields. repeat split; lia.
Qed.

Lemma accounted_received incoming senderUUID s :
  accounted s → accounted (sequenceNumberReceived G incoming senderUUID s).
Proof.
  intros Hs. apply (accounted_senderCheck senderUUID) in Hs.
  unfold sequenceNumberReceived. cbn zeta.
  set (s1 := senderCheck senderUUID s) in *.
  assert (H1 : accounted (set_numReceived (_numReceived s1 + 1) s1)).
  { destruct Hs as (Hc & Hl). unfold countersNonNegative in Hc.
    unfold accounted, countersNonNegative. fields. repeat split; lia. }
  destruct (incoming =? expectedOf incoming s1).
  - destruct H1 as (Hc & Hl). unfold countersNonNegative in Hc.
    unfold accounted, countersNonNegative. fields. repeat split; lia.
  - by apply accounted_outOfOrder.
Qed.

Lemma accounted_reachable s : reachable G s → accounted s.
Proof.
  induction 1 as [| s incoming senderUUID _ IH _].
  - apply accounted_create.
  - by apply accounted_received.
Qed.

(** A run of calls with [quint16] arguments stays among the reachable
    states. *)
Lemma reachable_receiveAll senderUUID l s :
  Forall is_quint16 l → reachable G s → reachable G (receiveAll G senderUUID l s).
Proof.
  intros Hl. revert s. unfold receiveAll.
  induction Hl as [| x l Hx _ IH]; intros s Hs; cbn [foldl]; [done |].
  apply IH. by constructor.
Qed.

(** What one call from the stored sender does to the counters: six of them
    never decrease, and [_numLost] drops by one exactly on a recovery. *)
Lemma classify_counters incoming incomingInt expectedInt s :
  let s' := classify G incoming incomingInt expectedInt s in
  countersGrow s s' ∧ _numLost s - 1 <= _numLost s' ∧
  (_numLost s' < _numLost s →
   incoming ∈ _missingSet s ∧ _numRecovered s' = _numRecovered s + 1).
Proof.
  unfold classify. cbn zeta.
  destruct (Z.ltb_spec expectedInt incomingInt) as [Hlt | Hge]; fields.
  - match goal with |- context [if ?b then _ else _] => destruct b end;
      [rewrite pruneMissingSet_frame |];
      unfold countersGrow; fields; repeat split; lia.
  - case_decide as Hin; unfold countersGrow; fields; repeat split; lia || done.
Qed.

Lemma outOfOrder_counters incoming expected s :
  let s' := outOfOrder G incoming expected s in
  countersGrow s s' ∧ _numLost s - 1 <= _numLost s' ∧
  (_numLost s' < _numLost s →
   incoming ∈ _missingSet s ∧ _numRecovered s' = _numRecovered s + 1).
Proof.
  unfold outOfOrder. cbn zeta.
  repeat match goal with |- context [if ?b then _ else _] => destruct b end;
    try apply classify_counters.
  unfold countersGrow; fields; repeat split; lia.
Qed.

Lemma received_counters incoming senderUUID s :
  senderUUID = _lastSenderUUID s →
  let s' := sequenceNumberReceived G incoming senderUUID s in
  countersGrow s s' ∧ _numLost s - 1 <= _numLost s' ∧
  (_numLost s' < _numLost s →
   incoming ∈ _missingSet s ∧ _numRecovered s' = _numRecovered s + 1).
Proof.
  intros Hs. unfold sequenceNumberReceived. rewrite senderCheck_same by done.
  cbn zeta. destruct (incoming =? expectedOf incoming s).
  - unfold countersGrow; fields; repeat split; lia.
  - pose proof (outOfOrder_counters incoming (expectedOf incoming s)
                  (set_numReceived (_numReceived s + 1) s)) as H.
    cbn zeta in H. unfold countersGrow in *. fields.
    destruct H as ((? & ? & ? & ? & ? & ?) & ? & ?). repeat split; tauto || lia.
Qed.

(** The exact move of [_numLost] in one call from the stored sender. *)
Lemma classify_lostStep incoming incomingInt expectedInt s :
  lostStep incoming s (classify G incoming incomingInt expectedInt s).
Proof.
  unfold classify, lostStep.
  destruct (Z.ltb_spec expectedInt incomingInt) as [Hlt | Hge]; fields.
  - match goal with |- context [if ?b then _ else _] => destruct b end;
      [rewrite pruneMissingSet_frame |]; fields; split; intros; lia.
  - case_decide as Hin; fields; split; intros; try lia; tauto.
Qed.

Lemma received_lostStep incoming senderUUID s :
  senderUUID = _lastSenderUUID s →
  lostStep incoming s (sequenceNumberReceived G incoming senderUUID s).
Proof.
  intros Hs. unfold sequenceNumberReceived. rewrite senderCheck_same by done.
  cbn zeta. destruct (incoming =? expectedOf incoming s).
  - unfold lostStep. fields. split; intros; lia.
  - unfold outOfOrder. cbn zeta.
    repeat match goal with |- lostStep _ _ (if ?b then _ else _) => destruct b end;
      try apply (classify_lostStep incoming _ _
                   (set_numReceived (_numReceived s + 1) s)).
    unfold lostStep. fields. split; intros; lia.
Qed.

End StatsInvariant.

Section Scenario.

Import SequenceNumberStats.

Variable G : Z.
Hypothesis G_lower : 3 <= G.
Hypothesis G_upper : 3 < UINT16_RANGE - G.
Variable X : QUuid.

(** Scenario B: the numbers 1, 2, 5 from one sender. *)
Lemma scenario_B_state :
  receiveAll G X [1; 2; 5] create = mk 5 {[3; 4]} 3 0 1 0 2 0 0 X.
Proof using G_lower G_upper.
  unfold receiveAll. cbn [foldl].
  rewrite received_create.
  rewrite (received_on_time G 2 X (mk 1 ∅ 1 0 0 0 0 0 0 X)) by done.
  change (set_lastReceived 2 _) with (mk 2 ∅ 2 0 0 0 0 0 0 X).
  rewrite (received_out_of_order G 5 X) by done.
  change (expectedOf 5 _) with 3.
  change (set_numReceived _ _) with (mk 2 ∅ 3 0 0 0 0 0 0 X).
  rewrite outOfOrder_plain by (unfold UINT16_RANGE in *; lia).
  rewrite classify_early; [done | lia |].
  change (Z.of_nat _) with 2. lia.
Qed.

(** Scenario C: then 3 arrives late and is recovered. *)
Lemma scenario_C_state :
  sequenceNumberReceived G 3 X (mk 5 {[3; 4]} 3 0 1 0 2 0 0 X)
  = mk 5 {[4]} 4 0 1 1 1 1 0 X.
Proof using G_lower G_upper.
  rewrite (received_out_of_order G 3 X) by done.
  change (expectedOf 3 _) with 6.
  change (set_numReceived _ _) with (mk 5 {[3; 4]} 4 0 1 0 2 0 0 X).
  rewrite outOfOrder_plain by (unfold UINT16_RANGE in *; lia).
  rewrite classify_recovered; [by vm_compute | lia | cbn; set_solver].
Qed.

(** Scenario D: then 3 arrives again and is a duplicate. *)
Lemma scenario_D_state :
  sequenceNumberReceived G 3 X (mk 5 {[4]} 4 0 1 1 1 1 0 X)
  = mk 5 {[4]} 5 0 1 2 1 1 1 X.
Proof using G_lower G_upper.
  rewrite (received_out_of_order G 3 X) by done.
  change (expectedOf 3 _) with 6.
  change (set_numReceived _ _) with (mk 5 {[4]} 5 0 1 1 1 1 0 X).
  rewrite outOfOrder_plain by (unfold UINT16_RANGE in *; lia).
  rewrite classify_duplicate; [done | lia | cbn; set_solver].
Qed.

End Scenario.

(** * Properties of SentPacketHistory *)

Section HistoryFacts.

Import SentPacketHistory.

(** Ring-safe subtraction as the source computes it: one conditional
    addition of the ring size. *)
Lemma slotBack_cases n slot steps :
  0 <= slot < n → 0 <= steps <= n →
  slotBack n slot steps
  = if slot - steps <? 0 then slot - steps + n else slot - steps.
Proof.
  intros Hslot Hsteps. unfold slotBack.
  destruct (Z.ltb_spec (slot - steps) 0).
  - rewrite <- (Z.mod_add _ 1 n), Z.mul_1_l by lia. apply Z.mod_small. lia.
  - apply Z.mod_small. lia.
Qed.

Lemma slotBack_range n slot steps : 0 < n → 0 <= slotBack n slot steps < n.
Proof. intros Hn. unfold slotBack. apply Z.mod_pos_bound. lia. Qed.

(** The spec's ring distance as the source computes it. *)
Lemma ringDistance_cases newest older :
  is_quint16 newest → is_quint16 older →
  ringDistance newest older
  = if newest - older <? 0 then newest - older + UINT16_RANGE
    else newest - older.
Proof.
  unfold is_quint16, ringDistance, UINT16_RANGE. intros Hn Ho.
  destruct (Z.ltb_spec (newest - older) 0).
  - rewrite <- (Z.mod_add _ 1 65536), Z.mul_1_l by lia. apply Z.mod_small. lia.
  - apply Z.mod_small. lia.
Qed.

(** A lookup within the live part of a well-formed history reads the slot
    that lies the ring distance back from the newest slot. *)
Lemma getPacket_live sequenceNumber h :
  wellFormed h → is_quint16 sequenceNumber →
  ringDistance (_newestSequenceNumber h) sequenceNumber < _numExistingPackets h →
  ∃ packet,
    _sentPackets h !! Z.to_nat (slotBack (size h) (_newestPacketAt h)
      (ringDistance (_newestSequenceNumber h) sequenceNumber)) = Some packet ∧
    getPacket sequenceNumber h = Done (Some packet).
Proof.
  intros (Hat & Hcount & Hnewest) Hseq Hd.
  assert (Hd0 : 0 <= ringDistance (_newestSequenceNumber h) sequenceNumber).
  { unfold ringDistance, UINT16_RANGE. apply Z.mod_pos_bound. lia. }
  pose proof (slotBack_range (size h) (_newestPacketAt h)
    (ringDistance (_newestSequenceNumber h) sequenceNumber)) as Hr.
  destruct (lookup_lt_is_Some_2 (_sentPackets h)
    (Z.to_nat (slotBack (size h) (_newestPacketAt h)
       (ringDistance (_newestSequenceNumber h) sequenceNumber)))) as [packet Hp].
  { unfold size in *. lia. }
  exists packet. split; [done |].
  unfold getPacket. cbn zeta.
  rewrite <- ringDistance_cases by done.
  destruct (Z.leb_spec (_numExistingPackets h)
    (ringDistance (_newestSequenceNumber h) sequenceNumber)); [lia |].
  rewrite <- slotBack_cases by lia.
  destruct (Z.leb_spec 0 (slotBack (size h) (_newestPacketAt h)
    (ringDistance (_newestSequenceNumber h) sequenceNumber))); [| lia].
  by rewrite Hp.
Qed.

(** A lookup beyond the live part returns [NULL]. *)
Lemma getPacket_stale sequenceNumber h :
  is_quint16 (_newestSequenceNumber h) → is_quint16 sequenceNumber →
  _numExistingPackets h <= ringDistance (_newestSequenceNumber h) sequenceNumber →
  getPacket sequenceNumber h = Done None.
Proof.
  intros Hn Hs Hd. unfold getPacket. cbn zeta.
  rewrite <- ringDistance_cases by done.
  by destruct (Z.leb_spec (_numExistingPackets h)
    (ringDistance (_newestSequenceNumber h) sequenceNumber)); [| lia].
Qed.

Lemma records_create C : 0 < C → records C [] (create C).
Proof.
  intros HC. unfold records, create, size. cbn.
  rewrite length_replicate. repeat split; try lia.
Qed.

Lemma records_packetSent C hist h sequenceNumber packet :
  0 < C → records C hist h →
  ∃ h', packetSent sequenceNumber packet h = Done h' ∧
        records C ((sequenceNumber, packet) :: hist) h'.
Proof.
  intros HC (Hsize & Hat & Hcount & Hslots & Hnewest).
  unfold packetSent. rewrite Hsize.
  set (newestPacketAt :=
         if _newestPacketAt h =? C - 1 then 0 else _newestPacketAt h + 1).
  assert (Hat' : 0 <= newestPacketAt < C).
  { subst newestPacketAt. destruct (Z.eqb_spec (_newestPacketAt h) (C - 1)); lia. }
  destruct (Z.leb_spec 0 newestPacketAt); [| lia].
  destruct (Z.ltb_spec newestPacketAt C); [| lia].
  cbn [andb]. eexists. split; [reflexivity |].
  unfold records, size in *. cbn [_sentPackets _newestPacketAt
    _numExistingPackets _newestSequenceNumber length].
  rewrite length_insert.
  assert (Hcount' :
    (if _numExistingPackets h <? C then _numExistingPackets h + 1
     else _numExistingPackets h) = Z.min (Z.of_nat (S (length hist))) C).
  { destruct (Z.ltb_spec (_numExistingPackets h) C); lia. }
  rewrite Hcount'. repeat split; try lia.
  intros j Hj. destruct (Z.eq_dec j 0) as [-> | Hj0].
  - rewrite slotBack_cases by lia.
    replace (newestPacketAt - 0) with newestPacketAt by lia.
    destruct (Z.ltb_spec newestPacketAt 0); [lia |].
    rewrite list_lookup_insert_eq by lia. done.
  - replace (Z.to_nat j) with (S (Z.to_nat (j - 1))) by lia.
    cbn [lookup list_lookup]. rewrite <- Hslots by lia.
    assert (Hback : slotBack C newestPacketAt j
                    = slotBack C (_newestPacketAt h) (j - 1)).
    { rewrite !slotBack_cases by lia. subst newestPacketAt.
      destruct (Z.eqb_spec (_newestPacketAt h) (C - 1));
        repeat match goal with |- context [?a <? ?b] =>
          destruct (Z.ltb_spec a b) end; lia. }
    assert (Hne : slotBack C newestPacketAt j ≠ newestPacketAt).
    { rewrite slotBack_cases by lia.
      destruct (Z.ltb_spec (newestPacketAt - j) 0); lia. }
    pose proof (slotBack_range C newestPacketAt j HC).
    rewrite list_lookup_insert_ne by lia. by rewrite Hback.
Qed.

Lemma records_sendAll C calls hist h :
  0 < C → records C hist h →
  ∃ h', sendAll calls h = Done h' ∧ records C (reverse calls ++ hist) h'.
Proof.
  intros HC. revert hist h.
  induction calls as [| [sequenceNumber packet] calls IH]; intros hist h Hr.
  - exists h. by split.
  - destruct (records_packetSent C hist h sequenceNumber packet HC Hr)
      as (h1 & Hsent & Hr1).
    destruct (IH _ _ Hr1) as (h' & Hall & Hr').
    exists h'. cbn [sendAll]. rewrite Hsent. split; [done |].
    by rewrite reverse_cons, <- app_assoc.
Qed.

Lemma records_wellFormed C hist h :
  0 < C → records C hist h → is_quint16 (_newestSequenceNumber h) →
  wellFormed h.
Proof.
  intros HC (Hsize & Hat & Hcount & _ & _) Hq. unfold wellFormed.
  rewrite Hsize. repeat split; try lia; apply Hq.
Qed.

(** Every history built by the constructor with at least one slot and
    [packetSent] calls is well formed, consecutive numbers or not. *)
Lemma wellFormed_create C : 0 < C → wellFormed (create C).
Proof.
  intros HC. unfold wellFormed, create, size, is_quint16. cbn.
  rewrite length_replicate. unfold QUINT16_MAX, UINT16_RANGE. lia.
Qed.

Lemma wellFormed_packetSent sequenceNumber packet h :
  wellFormed h → is_quint16 sequenceNumber →
  ∃ h', packetSent sequenceNumber packet h = Done h' ∧ wellFormed h'.
Proof.
  intros (Hat & Hcount & _) Hq. unfold packetSent.
  set (newestPacketAt :=
         if _newestPacketAt h =? size h - 1 then 0 else _newestPacketAt h + 1).
  assert (Hat' : 0 <= newestPacketAt < size h).
  { subst newestPacketAt.
    destruct (Z.eqb_spec (_newestPacketAt h) (size h - 1)); lia. }
  destruct (Z.leb_spec 0 newestPacketAt); [| lia].
  destruct (Z.ltb_spec newestPacketAt (size h)); [| lia].
  cbn [andb]. eexists. split; [reflexivity |].
  unfold wellFormed, size in *. cbn [_sentPackets _newestPacketAt
    _numExistingPackets _newestSequenceNumber].
  rewrite length_insert.
  destruct (Z.ltb_spec (_numExistingPackets h)
              (Z.of_nat (length (_sentPackets h)))); repeat split; lia || apply Hq.
Qed.

(** In a run of consecutive calls, the call [j] places after the first
    carries the first number plus [j], wrapped. *)
Lemma consecutive_offset calls :
  consecutive calls →
  ∀ (j : nat) n p n' p',
    calls !! 0%nat = Some (n, p) → calls !! j = Some (n', p') →
    is_quint16 n ∧ n' = to_quint16 (n + Z.of_nat j).
Proof.
  induction calls as [| [n0 p0] calls IH]; intros Hc j n p n' p' H0 Hj;
    [done |].
  cbn in H0. injection H0 as -> ->.
  destruct Hc as (Hq & Hnext & Hrest). split; [done |].
  destruct j as [| j].
  - cbn in Hj. injection Hj as <- <-.
    unfold to_quint16, is_quint16 in *. rewrite Z.mod_small; lia.
  - cbn in Hj. destruct calls as [| [n1 p1] calls']; [done |].
    destruct (IH Hrest j n1 p1 n' p' eq_refl Hj) as (_ & ->).
    rewrite Hnext. unfold to_quint16.
    rewrite Zplus_mod_idemp_l. f_equal. lia.
Qed.

Lemma consecutive_drop calls i : consecutive calls → consecutive (drop i calls).
Proof.
  revert calls. induction i as [| i IH]; intros calls Hc; [by rewrite drop_0 |].
  destruct calls as [| [n p] calls]; [done |].
  cbn [drop]. apply IH. by destruct Hc as (_ & _ & ?).
Qed.

(** Read from the newest call backwards: the call [k] places before the
    newest carries the newest number minus [k], wrapped. *)
Lemma consecutive_reverse calls (k : nat) newest p0 n p :
  consecutive calls →
  reverse calls !! 0%nat = Some (newest, p0) →
  reverse calls !! k = Some (n, p) →
  is_quint16 newest ∧ n = to_quint16 (newest - Z.of_nat k).
Proof.
  intros Hc H0 Hk.
  assert (Hlen : (k < length calls)%nat).
  { apply lookup_lt_Some in Hk. by rewrite length_reverse in Hk. }
  rewrite reverse_lookup in H0, Hk by lia.
  pose proof (consecutive_drop calls (length calls - S k) Hc) as Hd.
  destruct (consecutive_offset _ Hd k n p newest p0) as (Hq & Hn).
  { rewrite lookup_drop. rewrite <- Hk. f_equal. lia. }
  { rewrite lookup_drop. rewrite <- H0. f_equal. lia. }
  destruct (consecutive_offset _ (consecutive_drop calls (length calls - 1) Hc)
              0%nat newest p0 newest p0) as (Hq' & _).
  { rewrite lookup_drop. rewrite <- H0. f_equal. lia. }
  { rewrite lookup_drop. rewrite <- H0. f_equal. lia. }
  split; [done |]. rewrite Hn. unfold to_quint16, is_quint16 in *.
  rewrite Zminus_mod_idemp_l.
  replace (n + Z.of_nat k - Z.of_nat k) with n by lia.
  rewrite Z.mod_small; lia.
Qed.

(** The number a lookup is asked for lies the asked distance back. *)
Lemma ringDistance_back newest k :
  0 <= k < UINT16_RANGE →
  ringDistance newest (to_quint16 (newest - k)) = k.
Proof.
  intros Hk. unfold ringDistance, to_quint16.
  rewrite Zminus_mod_idemp_r.
  replace (newest - (newest - k)) with k by lia.
  apply Z.mod_small. lia.
Qed.

(** Lookups after a run of consecutive calls on a new history of [C]
    slots, by the distance [k] of the number asked for from the newest. *)
Lemma consecutive_history C calls :
  0 < C → consecutive calls →
  ∃ h, sendAll calls (create C) = Done h ∧
    _numExistingPackets h = Z.min (Z.of_nat (length calls)) C ∧
    ∀ k, 0 <= k < UINT16_RANGE →
      let sequenceNumber := to_quint16 (_newestSequenceNumber h - k) in
      (k < _numExistingPackets h →
       ∃ packet,
         reverse calls !! Z.to_nat k = Some (sequenceNumber, packet) ∧
         getPacket sequenceNumber h = Done (Some packet)) ∧
      (_numExistingPackets h <= k → getPacket sequenceNumber h = Done None).
Proof.
  intros HC Hc.
  destruct (records_sendAll C calls [] (create C) HC (records_create C HC))
    as (h & Hall & Hr).
  rewrite app_nil_r in Hr. exists h. split; [done |].
  pose proof Hr as (Hsize & Hat & Hcount & Hslots & Hnewest).
  rewrite length_reverse in Hcount. split; [done |].
  assert (Hq : is_quint16 (_newestSequenceNumber h)).
  { rewrite Hnewest. destruct (reverse calls) as [| [n0 p0] hist] eqn:Hrev.
    - unfold is_quint16, QUINT16_MAX, UINT16_RANGE. lia.
    - apply (consecutive_reverse calls 0 n0 p0 n0 p0 Hc);
        by rewrite Hrev. }
  intros k Hk sequenceNumber.
  assert (Hs : is_quint16 sequenceNumber).
  { apply Z.mod_pos_bound. unfold UINT16_RANGE. lia. }
  pose proof (ringDistance_back (_newestSequenceNumber h) k Hk) as Hd.
  fold sequenceNumber in Hd. split; intros Hlive.
  - destruct (getPacket_live sequenceNumber h) as (packet & Hslot & Hget);
      [by eapply records_wellFormed | done | lia |].
    rewrite Hd, Hsize, Hslots in Hslot by lia.
    destruct (reverse calls !! Z.to_nat k) as [[n p] |] eqn:Hk'; [| done].
    cbn in Hslot. injection Hslot as ->.
    exists packet. split; [| done]. f_equal. f_equal.
    destruct (reverse calls) as [| [n0 p0] hist] eqn:Hrev; [done |].
    destruct (consecutive_reverse calls (Z.to_nat k) n0 p0 n packet Hc)
      as (_ & ->); [by rewrite Hrev .. |].
    subst sequenceNumber. rewrite Hnewest. f_equal. lia.
  - apply getPacket_stale; [done | done | lia].
Qed.

End HistoryFacts.

Section Claims.

Import SequenceNumberStats.

(** C1. On a freshly constructed object and with one fixed sender, the
    numbers 1, 2, 5, 3, 3 give: after the third call three received, one
    early, two lost, missing set {3, 4}, last received 5; after the fourth
    call one late, one recovered, one lost, missing set {4}; after the fifth
    call one duplicate, still one recovered, and 3 not in the missing set.
    [MAX_REASONABLE_SEQUENCE_GAP] is taken in the range where a gap of 3 is
    accepted and is below the rollover threshold. *)
Theorem scenario_1_2_5_3_3 (G : Z) (X : QUuid) :
  3 <= G → 3 < UINT16_RANGE - G →
  let s3 := receiveAll G X [1; 2; 5] create in
  let s4 := receiveAll G X [1; 2; 5; 3] create in
  let s5 := receiveAll G X [1; 2; 5; 3; 3] create in
  (_numReceived s3 = 3 ∧ _numEarly s3 = 1 ∧ _numLost s3 = 2 ∧
   _missingSet s3 = {[3; 4]} ∧ _lastReceived s3 = 5) ∧
  (_numLate s4 = 1 ∧ _numRecovered s4 = 1 ∧ _numLost s4 = 1 ∧
   _missingSet s4 = {[4]}) ∧
  (_numDuplicate s5 = 1 ∧ _numRecovered s5 = 1 ∧ 3 ∉ _missingSet s5).
Proof.
  intros Hlo Hhi s3 s4 s5.
  assert (E3 : s3 = mk 5 {[3; 4]} 3 0 1 0 2 0 0 X)
    by (by apply scenario_B_state).
  assert (E4 : s4 = mk 5 {[4]} 4 0 1 1 1 1 0 X).
  { subst s4. change (receiveAll G X [1; 2; 5; 3] create)
      with (sequenceNumberReceived G 3 X s3).
    rewrite E3. by apply scenario_C_state. }
  assert (E5 : s5 = mk 5 {[4]} 5 0 1 2 1 1 1 X).
  { subst s5. change (receiveAll G X [1; 2; 5; 3; 3] create)
      with (sequenceNumberReceived G 3 X s4).
    rewrite E4. by apply scenario_D_state. }
  rewrite E3, E4, E5. cbn. repeat split; try done; set_solver.
Qed.

Lemma scenario_1_2_5_3_3_witness :
  let s3 := receiveAll 1000 7%N [1; 2; 5] create in
  let s4 := receiveAll 1000 7%N [1; 2; 5; 3] create in
  let s5 := receiveAll 1000 7%N [1; 2; 5; 3; 3] create in
  (_numReceived s3 = 3 ∧ _numEarly s3 = 1 ∧ _numLost s3 = 2 ∧
   _missingSet s3 = {[3; 4]} ∧ _lastReceived s3 = 5) ∧
  (_numLate s4 = 1 ∧ _numRecovered s4 = 1 ∧ _numLost s4 = 1 ∧
   _missingSet s4 = {[4]}) ∧
  (_numDuplicate s5 = 1 ∧ _numRecovered s5 = 1 ∧ 3 ∉ _missingSet s5).
Proof.
  apply (scenario_1_2_5_3_3 1000 7%N); unfold UINT16_RANGE; lia.
Defined.

(** C3. With the sender unchanged and at least one number received before,
    a number that is not the expected one, whose gap from the expected one
    is below the rollover threshold and above [MAX_REASONABLE_SEQUENCE_GAP],
    increments [_numUnreasonable] and [_numReceived] and changes nothing
    else. *)
Theorem unreasonable_discarded (G : Z) (s : t) (incoming : Z) (senderUUID : QUuid) :
  senderUUID = _lastSenderUUID s →
  0 < _numReceived s →
  let expected := to_quint16 (_lastReceived s + 1) in
  incoming ≠ expected →
  Z.abs (incoming - expected) < UINT16_RANGE - G →
  G < Z.abs (incoming - expected) →
  sequenceNumberReceived G incoming senderUUID s
  = mk (_lastReceived s) (_missingSet s) (_numReceived s + 1)
       (_numUnreasonable s + 1) (_numEarly s) (_numLate s) (_numLost s)
       (_numRecovered s) (_numDuplicate s) (_lastSenderUUID s).
Proof.
  intros Hs Hn expected Hne Hroll Hgap.
  assert (He : expectedOf incoming s = expected).
  { unfold expectedOf. destruct (Z.ltb_spec 0 (_numReceived s)); [done | lia]. }
  rewrite received_out_of_order by (done || by rewrite He).
  rewrite He. unfold outOfOrder. cbn zeta.
  destruct (Z.leb_spec (UINT16_RANGE - G) (Z.abs (incoming - expected))); [lia |].
  destruct (Z.ltb_spec G (Z.abs (incoming - expected))); [reflexivity | lia].
Qed.

Lemma unreasonable_discarded_witness :
  sequenceNumberReceived 1000 5000 7%N (mk 5 {[3; 4]} 3 0 1 0 2 0 0 7%N)
  = mk 5 {[3; 4]} 4 1 1 0 2 0 0 7%N.
Proof.
  refine (unreasonable_discarded 1000 (mk 5 {[3; 4]} 3 0 1 0 2 0 0 7%N)
            5000 7%N eq_refl _ _ _ _);
    by_computation.
Defined.

(** C4. On a freshly constructed object and with one fixed sender,
    when [MAX_REASONABLE_SEQUENCE_GAP] is at least 3 and a gap of 3 is below
    the rollover threshold [UINT16_RANGE - MAX_REASONABLE_SEQUENCE_GAP],
    the numbers 65535 and 3 leave [_numUnreasonable] at 0: the expected
    number after 65535 is 0, the second number is early with gap 3, three
    numbers are lost, the missing set is {0, 1, 2} and the last received
    number is 3. *)
Theorem rollover_65535_then_3 (G : Z) (X : QUuid) :
  3 <= G → 3 < UINT16_RANGE - G →
  receiveAll G X [65535; 3] create = mk 3 {[0; 1; 2]} 2 0 1 0 3 0 0 X.
Proof.
  intros Hlo Hhi. unfold receiveAll. cbn [foldl].
  rewrite received_create.
  rewrite (received_out_of_order G 3 X) by done.
  change (expectedOf 3 _) with 0.
  change (set_numReceived _ _) with (mk 65535 ∅ 2 0 0 0 0 0 0 X).
  rewrite outOfOrder_plain by (unfold UINT16_RANGE in *; lia).
  rewrite classify_early; [by vm_compute | lia |].
  change (Z.of_nat _) with 3. lia.
Qed.

Lemma rollover_65535_then_3_witness :
  receiveAll 1000 7%N [65535; 3] create = mk 3 {[0; 1; 2]} 2 0 1 0 3 0 0 7%N.
Proof.
  apply (rollover_65535_then_3 1000 7%N); by_computation.
Defined.

(** The upper bound on the constant is sharp: at 65533 a gap of 3 reaches
    the rollover threshold, the larger number 3 is shifted down by 65536,
    and the packet is counted late and duplicate instead of early. *)
Lemma rollover_65535_then_3_large_gap :
  3 <= 65533 ∧
  receiveAll 65533 7%N [65535; 3] create = mk 65535 ∅ 2 0 0 1 0 0 1 7%N ∧
  _numEarly (receiveAll 65533 7%N [65535; 3] create) ≠ 1 ∧
  _numLost (receiveAll 65533 7%N [65535; 3] create) ≠ 3 ∧
  _lastReceived (receiveAll 65533 7%N [65535; 3] create) ≠ 3.
Proof. repeat split; by_computation. Qed.

(** C5, amended. When the sender differs from the stored one, the sender
    check zeroes the seven counters, empties the missing set and adopts the
    new identity, and leaves [_lastReceived] as it was; the incoming number
    is then on time whatever it is, so the call ends with one number
    received and that number as the last received one. *)
Theorem sender_change_resets (G : Z) (s : t) (incoming : Z) (senderUUID : QUuid) :
  senderUUID ≠ _lastSenderUUID s →
  senderCheck senderUUID s = mk (_lastReceived s) ∅ 0 0 0 0 0 0 0 senderUUID ∧
  sequenceNumberReceived G incoming senderUUID s
  = mk incoming ∅ 1 0 0 0 0 0 0 senderUUID.
Proof.
  intros Hne. split.
  - by rewrite senderCheck_changed.
  - unfold sequenceNumberReceived. rewrite senderCheck_changed by done.
    cbn. by rewrite Z.eqb_refl.
Qed.

Lemma sender_change_resets_witness :
  senderCheck 2%N (mk 5 {[3; 4]} 3 0 1 0 2 0 0 1%N)
  = mk 5 ∅ 0 0 0 0 0 0 0 2%N ∧
  sequenceNumberReceived 1000 9 2%N (mk 5 {[3; 4]} 3 0 1 0 2 0 0 1%N)
  = mk 9 ∅ 1 0 0 0 0 0 0 2%N.
Proof.
  apply (sender_change_resets 1000 (mk 5 {[3; 4]} 3 0 1 0 2 0 0 1%N) 9 2%N).
  by_computation.
Defined.

(** C5 as stated fails on [_lastReceived]: after 1, 2, 5 from sender 1, the
    sender check for sender 2 leaves it at 5, not at 65535. *)
Lemma sender_change_keeps_lastReceived :
  let s := receiveAll 1000 1%N [1; 2; 5] create in
  2%N ≠ _lastSenderUUID s ∧
  _lastReceived (senderCheck 2%N s) = 5 ∧
  _lastReceived (senderCheck 2%N s) ≠ QUINT16_MAX.
Proof. repeat split; by_computation. Qed.

(** C6. For every state, a call with the stored sender and the successor
    of [_lastReceived] adds one to [_numReceived], makes the incoming number
    the last received one, and changes nothing else. *)
Theorem on_time_frame (G : Z) (s : t) (incoming : Z) (senderUUID : QUuid) :
  senderUUID = _lastSenderUUID s →
  incoming = to_quint16 (_lastReceived s + 1) →
  sequenceNumberReceived G incoming senderUUID s
  = mk incoming (_missingSet s) (_numReceived s + 1) (_numUnreasonable s)
       (_numEarly s) (_numLate s) (_numLost s) (_numRecovered s)
       (_numDuplicate s) (_lastSenderUUID s).
Proof.
  intros Hs Hi. rewrite received_on_time; [reflexivity | done |].
  unfold expectedOf. by destruct (0 <? _numReceived s).
Qed.

Lemma on_time_frame_witness :
  sequenceNumberReceived 1000 0 7%N (mk 65535 {[3; 4]} 3 0 1 0 2 0 0 7%N)
  = mk 0 {[3; 4]} 4 0 1 0 2 0 0 7%N.
Proof.
  refine (on_time_frame 1000 (mk 65535 {[3; 4]} 3 0 1 0 2 0 0 7%N) 0 7%N _ _);
    by_computation.
Defined.

(** C7. For a last received number that is a [quint16] and a constant
    between 0 and 65536, the entries left by [pruneMissingSet] are exactly
    those of the missing set that the spec does not list as discarded;
    [_numLost] is unchanged, and so is every field other than the missing
    set. *)
Theorem prune_exact (G : Z) (s : t) :
  0 <= G <= UINT16_RANGE →
  is_quint16 (_lastReceived s) →
  (∀ missing, missing ∈ _missingSet (pruneMissingSet G s) ↔
     missing ∈ _missingSet s ∧ ¬ discardedBySpec G (_lastReceived s) missing) ∧
  _numLost (pruneMissingSet G s) = _numLost s ∧
  pruneMissingSet G s = set_missingSet (_missingSet (pruneMissingSet G s)) s.
Proof.
  intros HG Hlast.
  split; [| split; [by rewrite pruneMissingSet_frame | apply pruneMissingSet_frame]].
  intros missing. unfold pruneMissingSet, discardedBySpec, is_quint16 in *.
  cbn zeta. unfold to_quint16, UINT16_RANGE in *.
  destruct (Z.leb_spec 0 (_lastReceived s - G)) as [Hc | Hc]; fields;
    rewrite elem_of_filter, Z.mod_small by lia; intuition lia.
Qed.

Lemma prune_exact_witness :
  let s := mk 500 {[10; 600; 65000]} 9 0 3 0 3 0 0 7%N in
  (∀ missing, missing ∈ _missingSet (pruneMissingSet 1000 s) ↔
     missing ∈ _missingSet s ∧ ¬ discardedBySpec 1000 (_lastReceived s) missing) ∧
  _numLost (pruneMissingSet 1000 s) = _numLost s ∧
  pruneMissingSet 1000 s = set_missingSet (_missingSet (pruneMissingSet 1000 s)) s.
Proof.
  apply (prune_exact 1000 (mk 500 {[10; 600; 65000]} 9 0 3 0 3 0 0 7%N));
    cbn; unfold is_quint16, UINT16_RANGE; lia.
Defined.

(** C8, amended. Across a call with the stored sender, none of
    [_numReceived], [_numUnreasonable], [_numEarly], [_numLate],
    [_numRecovered], [_numDuplicate] decreases; [_numLost] is not
    monotonic: it decreases by exactly one, with [_numRecovered] growing by
    exactly one, when the call counts the incoming number late and finds it
    in the missing set, and in every other case it does not decrease; so it
    never drops by more than one per call; and at reachable states all seven
    counters are non-negative before and after the call. *)
Theorem counters_grow_except_lost (G : Z) (s : t) (incoming : Z) (senderUUID : QUuid) :
  senderUUID = _lastSenderUUID s →
  let s' := sequenceNumberReceived G incoming senderUUID s in
  countersGrow s s' ∧ _numLost s - 1 <= _numLost s' ∧
  (_numLost s' < _numLost s →
   incoming ∈ _missingSet s ∧ _numRecovered s' = _numRecovered s + 1) ∧
  (_numLate s' = _numLate s + 1 ∧ incoming ∈ _missingSet s →
   _numLost s' = _numLost s - 1 ∧ _numRecovered s' = _numRecovered s + 1) ∧
  (¬ (_numLate s' = _numLate s + 1 ∧ incoming ∈ _missingSet s) →
   _numLost s <= _numLost s' ∧ _numRecovered s' = _numRecovered s) ∧
  (reachable G s → countersNonNegative s ∧ countersNonNegative s').
Proof.
  intros Hs s'.
  destruct (received_counters G incoming senderUUID s Hs) as (Hg & Hl & Hr).
  destruct (received_lostStep G incoming senderUUID s Hs) as (Hdown & Hup).
  do 5 (split; [done |]).
  intros Hreach. apply accounted_reachable in Hreach. split.
  - by destruct Hreach.
  - by destruct (accounted_received G incoming senderUUID s Hreach).
Qed.

Lemma counters_grow_except_lost_witness :
  let s := receiveAll 1000 7%N [1; 2; 5] create in
  let s' := sequenceNumberReceived 1000 3 7%N s in
  countersGrow s s' ∧ _numLost s - 1 <= _numLost s' ∧
  (3 ∈ _missingSet s ∧ _numRecovered s' = _numRecovered s + 1) ∧
  (_numLost s' = _numLost s - 1 ∧ _numRecovered s' = _numRecovered s + 1) ∧
  (countersNonNegative s ∧ countersNonNegative s').
Proof.
  intros s s'.
  destruct (counters_grow_except_lost 1000 s 3 7%N)
    as (Hg & Hl & Hr & Hdown & _ & Hn); [by_computation |].
  do 2 (split; [done |]). split; [| split].
  - apply Hr. by_computation.
  - apply Hdown. by_computation.
  - apply Hn. apply reachable_receiveAll; [| constructor].
    repeat constructor; by_computation.
Defined.

(** C8 as stated fails for [_numLost]: after 1, 2, 5, the late arrival of 3
    from the same sender takes it from 2 to 1. *)
Lemma lost_decreases_on_recovery :
  let s := receiveAll 1000 7%N [1; 2; 5] create in
  7%N = _lastSenderUUID s ∧
  _numLost s = 2 ∧
  _numLost (sequenceNumberReceived 1000 3 7%N s) = 1 ∧
  _numLost (sequenceNumberReceived 1000 3 7%N s) < _numLost s.
Proof. repeat split; by_computation. Qed.

(** C10. At every state reachable from a freshly constructed object,
    whatever the senders, [_numLost] is at least the number of entries of
    the missing set, hence never negative. *)
Theorem lost_bounds_missing (G : Z) (s : t) :
  reachable G s →
  0 <= Z.of_nat (size (_missingSet s)) <= _numLost s.
Proof.
  intros Hr. apply accounted_reachable in Hr as [_ Hl]. lia.
Qed.

Lemma lost_bounds_missing_witness :
  let s := receiveAll 1000 7%N [1; 2; 5; 3] create in
  0 <= Z.of_nat (size (_missingSet s)) <= _numLost s.
Proof.
  apply (lost_bounds_missing 1000).
  apply reachable_receiveAll; [| constructor].
  repeat constructor; by_computation.
Defined.

End Claims.

Section HistoryClaims.

Import SentPacketHistory.

Local Open Scope string_scope.

(** C2. After any run of [packetSent] calls with consecutive sequence
    numbers on a new history of [C] slots, for every ring offset [k] the
    lookup of the newest number minus [k] returns the payload of the call
    that passed this number, the one [k] places before the newest, when [k]
    is below the live count, and [NULL] otherwise; and with three slots,
    after the calls (1, a), (2, b), (3, c), (4, d), the lookup of 1 returns
    [NULL], that of 4 returns d and that of 2 returns b. *)
Theorem sent_history_retrieval :
  (∀ C calls, 0 < C → consecutive calls →
     ∃ h, sendAll calls (create C) = Done h ∧
       _numExistingPackets h = Z.min (Z.of_nat (length calls)) C ∧
       ∀ k, 0 <= k < UINT16_RANGE →
         let sequenceNumber := to_quint16 (_newestSequenceNumber h - k) in
         (k < _numExistingPackets h →
          ∃ packet,
            reverse calls !! Z.to_nat k = Some (sequenceNumber, packet) ∧
            getPacket sequenceNumber h = Done (Some packet)) ∧
         (_numExistingPackets h <= k →
          getPacket sequenceNumber h = Done None)) ∧
  (∃ h, sendAll [(1, "a"); (2, "b"); (3, "c"); (4, "d")] (create 3) = Done h ∧
     getPacket 1 h = Done None ∧
     getPacket 4 h = Done (Some "d") ∧
     getPacket 2 h = Done (Some "b")).
Proof.
  split.
  - apply consecutive_history.
  - eexists. split; [reflexivity |]. repeat split; by vm_compute.
Qed.

Lemma sent_history_retrieval_witness :
  ∃ h, sendAll [(1, "a"); (2, "b"); (3, "c"); (4, "d")] (create 3) = Done h ∧
    _numExistingPackets h = 3 ∧
    (∃ packet,
       reverse [(1, "a"); (2, "b"); (3, "c"); (4, "d")] !! 2%nat
       = Some (to_quint16 (_newestSequenceNumber h - 2), packet) ∧
       getPacket (to_quint16 (_newestSequenceNumber h - 2)) h
       = Done (Some packet)) ∧
    getPacket (to_quint16 (_newestSequenceNumber h - 3)) h = Done None.
Proof.
  destruct (proj1 sent_history_retrieval 3
              [(1, "a"); (2, "b"); (3, "c"); (4, "d")])
    as (h & Hall & Hcount & Hk).
  - by_computation.
  - unfold consecutive, is_quint16, UINT16_RANGE. by vm_compute.
  - exists h. split; [done |]. split; [done |]. split.
    + apply (Hk 2); [by_computation | rewrite Hcount; by_computation].
    + apply (Hk 3); [by_computation | rewrite Hcount; by_computation].
Defined.

(** C9, amended. In a well-formed history, when the ring distance from the
    newest sequence number to the one asked for is below the live count,
    the lookup returns the payload in the slot that lies this ring distance
    back from the newest slot, with ring-safe subtraction. *)
Theorem lookup_reads_distance_back (h : t) (sequenceNumber : Z) :
  wellFormed h → is_quint16 sequenceNumber →
  ringDistance (_newestSequenceNumber h) sequenceNumber < _numExistingPackets h →
  ∃ packet,
    _sentPackets h !! Z.to_nat (slotBack (size h) (_newestPacketAt h)
      (ringDistance (_newestSequenceNumber h) sequenceNumber)) = Some packet ∧
    getPacket sequenceNumber h = Done (Some packet).
Proof. apply getPacket_live. Qed.

Lemma lookup_reads_distance_back_witness :
  ∃ packet,
    ["c"; "d"; "b"] !! Z.to_nat (slotBack 3 1 (ringDistance 4 2)) = Some packet ∧
    getPacket 2 (mk ["c"; "d"; "b"] 1 3 4) = Done (Some packet).
Proof.
  refine (lookup_reads_distance_back (mk ["c"; "d"; "b"] 1 3 4) 2 _ _ _).
  - unfold wellFormed, is_quint16. by vm_compute.
  - by_computation.
  - by_computation.
Defined.

(** C9 as stated fails: in the three-slot history after the calls (1, a),
    (2, b), (3, c), (4, d), the lookup of 2 returns b, while the slot that
    lies the live count back from the newest slot is the newest slot itself
    and holds d. *)
Lemma lookup_not_count_back :
  let h := mk ["c"; "d"; "b"] 1 3 4 in
  sendAll [(1, "a"); (2, "b"); (3, "c"); (4, "d")] (create 3) = Done h ∧
  ringDistance (_newestSequenceNumber h) 2 < _numExistingPackets h ∧
  getPacket 2 h = Done (Some "b") ∧
  _sentPackets h !! Z.to_nat (slotBack (size h) (_newestPacketAt h)
                                (_numExistingPackets h)) = Some "d" ∧
  "b" ≠ "d".
Proof. repeat split; by_computation. Qed.

End HistoryClaims.

(** * Further properties of SequenceNumberStats *)

Section StatsMore.

Import SequenceNumberStats.

Variable G : Z.

(** The insertion loop adds exactly the wrapped values of the integers it
    runs through. *)
Lemma elem_of_insertSkipped n missingInt (set : gset Z) m :
  m ∈ insertSkipped n missingInt set ↔
  m ∈ set ∨
  ∃ i, missingInt <= i < missingInt + Z.of_nat n ∧
       m = to_quint16 (if i <? 0 then i + UINT16_RANGE else i).
Proof.
  revert missingInt set. induction n as [| n IH]; intros missingInt set.
  - cbn. split; [by left |]. intros [H | (i & Hi & _)]; [done | lia].
  - cbn [insertSkipped]. rewrite IH, elem_of_union, elem_of_singleton. split.
    + intros [[-> | Hin] | (i & Hi & ->)].
      * right. exists missingInt. split; [lia | done].
      * by left.
      * right. exists i. split; [lia | done].
    + intros [Hin | (i & Hi & ->)]; [by left; right |].
      destruct (Z.eq_dec i missingInt) as [-> | Hne]; [by left; left |].
      right. exists i. split; [lia | done].
Qed.

(** For an integer in [-65536, 65536) the value the loop inserts is the
    integer reduced modulo 65536. *)
Lemma wrapped_skipped i :
  - UINT16_RANGE <= i < UINT16_RANGE →
  to_quint16 (if i <? 0 then i + UINT16_RANGE else i) = to_quint16 i.
Proof.
  unfold to_quint16, UINT16_RANGE. intros Hi.
  destruct (Z.ltb_spec i 0); [| done].
  by rewrite <- (Z.mod_add i 1 65536), Z.mul_1_l by lia.
Qed.

Lemma to_quint16_range x : is_quint16 (to_quint16 x).
Proof. apply Z.mod_pos_bound. unfold UINT16_RANGE. lia. Qed.

Lemma to_quint16_small x : is_quint16 x → to_quint16 x = x.
Proof. apply Z.mod_small. Qed.

(** The expected number is the incoming one on a first call and the
    wrapped successor of the last received one afterwards. *)
Lemma expectedOf_later incoming s :
  0 < _numReceived s → expectedOf incoming s = to_quint16 (_lastReceived s + 1).
Proof.
  intros H. unfold expectedOf. by destruct (Z.ltb_spec 0 (_numReceived s)); [| lia].
Qed.

(** Membership after pruning, with the casts of the cutoff resolved. *)
Lemma elem_of_pruneMissingSet s m :
  0 <= G <= UINT16_RANGE → is_quint16 (_lastReceived s) →
  m ∈ _missingSet (pruneMissingSet G s) ↔
  m ∈ _missingSet s ∧ ¬ discardedBySpec G (_lastReceived s) m.
Proof.
  intros HG Hlast. unfold pruneMissingSet, discardedBySpec, is_quint16 in *.
  cbn zeta. unfold to_quint16, UINT16_RANGE in *.
  destruct (Z.leb_spec 0 (_lastReceived s - G)) as [Hc | Hc]; fields;
    rewrite elem_of_filter, Z.mod_small by lia; intuition lia.
Qed.

(** The early branch of [classify], with the pruning test left in place. *)
Lemma classify_early_state incoming incomingInt expectedInt s :
  expectedInt < incomingInt →
  classify G incoming incomingInt expectedInt s
  = let s1 :=
      mk incoming
         (insertSkipped (Z.to_nat (incomingInt - expectedInt)) expectedInt
            (_missingSet s))
         (_numReceived s) (_numUnreasonable s) (_numEarly s + 1) (_numLate s)
         (_numLost s + (incomingInt - expectedInt)) (_numRecovered s)
         (_numDuplicate s) (_lastSenderUUID s) in
    if G <? Z.of_nat (size (_missingSet s1)) then pruneMissingSet G s1 else s1.
Proof.
  intros Hlt. unfold classify.
  by destruct (Z.ltb_spec expectedInt incomingInt); [| lia].
Qed.

(** What the early branch leaves, whether it prunes or not: the counters,
    the new baseline, every skipped number in the missing set, and nothing
    in the missing set but old entries and skipped numbers. *)
Lemma classify_early_facts incoming expectedInt s :
  0 <= G → 2 * G < UINT16_RANGE →
  is_quint16 incoming →
  expectedInt < incoming → incoming - expectedInt <= G →
  let s' := classify G incoming incoming expectedInt s in
  s' = set_missingSet (_missingSet s')
         (mk incoming (_missingSet s)
            (_numReceived s) (_numUnreasonable s) (_numEarly s + 1) (_numLate s)
            (_numLost s + (incoming - expectedInt)) (_numRecovered s)
            (_numDuplicate s) (_lastSenderUUID s)) ∧
  (∀ i, expectedInt <= i < incoming → to_quint16 i ∈ _missingSet s') ∧
  (∀ m, m ∈ _missingSet s' →
     m ∈ _missingSet s ∨ ∃ i, expectedInt <= i < incoming ∧ m = to_quint16 i).
Proof.
  intros HG0 HG Hinc Hlt Hgap s'. subst s'.
  rewrite classify_early_state by done. cbn zeta.
  set (set' := insertSkipped _ _ _).
  set (s1 := mk incoming set' _ _ _ _ _ _ _ _).
  assert (Hrange : - UINT16_RANGE <= expectedInt)
    by (unfold is_quint16, UINT16_RANGE in *; lia).
  assert (Hin : ∀ i, expectedInt <= i < incoming → to_quint16 i ∈ set').
  { intros i Hi. subst set'. apply elem_of_insertSkipped. right.
    exists i. split; [lia |]. rewrite wrapped_skipped; [done |].
    unfold is_quint16 in *. lia. }
  assert (Hout : ∀ m, m ∈ set' →
     m ∈ _missingSet s ∨ ∃ i, expectedInt <= i < incoming ∧ m = to_quint16 i).
  { intros m Hm. subst set'. apply elem_of_insertSkipped in Hm.
    destruct Hm as [Hm | (i & Hi & ->)]; [by left |].
    right. exists i. split; [lia |]. rewrite wrapped_skipped; [done |].
    unfold is_quint16 in *. lia. }
  change (_missingSet s1) with set'.
  destruct (Z.ltb_spec G (Z.of_nat (size set'))) as [Hbig | Hsmall].
  - split; [| split].
    + rewrite pruneMissingSet_frame. reflexivity.
    + intros i Hi.
      apply elem_of_pruneMissingSet;
        [unfold UINT16_RANGE in *; lia | done |].
      split; [by apply Hin |].
      change (_lastReceived s1) with incoming.
      unfold discardedBySpec, to_quint16, is_quint16, UINT16_RANGE in *.
      cbn zeta. destruct (Z.ltb_spec i 0).
      * rewrite <- (Z.mod_add i 1 65536), Z.mul_1_l, Z.mod_small by lia. lia.
      * rewrite Z.mod_small by lia. lia.
    + intros m Hm. apply Hout.
      by apply (pruneMissingSet_subseteq G s1).
  - split; [reflexivity |]. split; [apply Hin | apply Hout].
Qed.

(** The wrapped difference of two 16-bit numbers. *)
Lemma to_quint16_difference a b :
  is_quint16 a → is_quint16 b →
  to_quint16 (a - b) = if a - b <? 0 then a - b + UINT16_RANGE else a - b.
Proof.
  unfold is_quint16, to_quint16, UINT16_RANGE. intros Ha Hb.
  destruct (Z.ltb_spec (a - b) 0).
  - rewrite <- (Z.mod_add _ 1 65536), Z.mul_1_l by lia. apply Z.mod_small. lia.
  - apply Z.mod_small. lia.
Qed.

(** A number at most [G] ahead of the expected one on the ring reaches the
    early branch of [classify], with the rollover corrected when the
    expected number is the numerically larger one. *)
Lemma received_ahead incoming senderUUID s :
  senderUUID = _lastSenderUUID s → 0 < _numReceived s →
  is_quint16 (_lastReceived s) → is_quint16 incoming →
  2 * G < UINT16_RANGE →
  let gap := to_quint16 (incoming - to_quint16 (_lastReceived s + 1)) in
  0 < gap <= G →
  sequenceNumberReceived G incoming senderUUID s
  = classify G incoming incoming (incoming - gap)
      (set_numReceived (_numReceived s + 1) s).
Proof.
  intros Hs Hn Hlast Hinc HG gap Hgap.
  pose proof (to_quint16_range (_lastReceived s + 1)) as He.
  pose proof (to_quint16_difference incoming _ Hinc He) as Hd.
  fold gap in Hd.
  rewrite received_out_of_order; rewrite ?expectedOf_later by done; [| done |].
  2:{ intros Heq. subst gap. rewrite <- Heq, Z.sub_diag in Hgap.
      change (to_quint16 0) with 0 in Hgap. lia. }
  set (expected := to_quint16 (_lastReceived s + 1)) in *.
  unfold outOfOrder. cbn zeta. unfold is_quint16, UINT16_RANGE in *.
  destruct (Z.ltb_spec (incoming - expected) 0) as [Hneg | Hpos].
  - destruct (Z.leb_spec (65536 - G) (Z.abs (incoming - expected))); [| lia].
    destruct (Z.ltb_spec expected incoming); [lia |].
    f_equal. lia.
  - destruct (Z.leb_spec (65536 - G) (Z.abs (incoming - expected))); [lia |].
    destruct (Z.ltb_spec G (Z.abs (incoming - expected))); [lia |].
    f_equal. lia.
Qed.

(** A number at most [G] behind the expected one on the ring reaches the
    late branch of [classify]. *)
Lemma received_behind incoming senderUUID s :
  senderUUID = _lastSenderUUID s → 0 < _numReceived s →
  is_quint16 (_lastReceived s) → is_quint16 incoming →
  2 * G < UINT16_RANGE →
  0 < to_quint16 (to_quint16 (_lastReceived s + 1) - incoming) <= G →
  ∃ incomingInt expectedInt,
    incomingInt <= expectedInt ∧
    sequenceNumberReceived G incoming senderUUID s
    = classify G incoming incomingInt expectedInt
        (set_numReceived (_numReceived s + 1) s).
Proof.
  intros Hs Hn Hlast Hinc HG Hback.
  pose proof (to_quint16_range (_lastReceived s + 1)) as He.
  pose proof (to_quint16_difference _ incoming He Hinc) as Hd.
  rewrite received_out_of_order; rewrite ?expectedOf_later by done; [| done |].
  2:{ intros Heq. rewrite <- Heq, Z.sub_diag in Hback.
      change (to_quint16 0) with 0 in Hback. lia. }
  set (expected := to_quint16 (_lastReceived s + 1)) in *.
  unfold outOfOrder. cbn zeta. unfold is_quint16, UINT16_RANGE in *.
  destruct (Z.ltb_spec (expected - incoming) 0) as [Hneg | Hpos].
  - destruct (Z.leb_spec (65536 - G) (Z.abs (incoming - expected))); [| lia].
    destruct (Z.ltb_spec expected incoming); [| lia].
    exists (incoming - 65536), expected. split; [lia | done].
  - destruct (Z.leb_spec (65536 - G) (Z.abs (incoming - expected))); [lia |].
    destruct (Z.ltb_spec G (Z.abs (incoming - expected))); [lia |].
    exists incoming, expected. split; [lia | done].
Qed.

End StatsMore.

Section StatsSteps.

Import SequenceNumberStats.

(** X1. With the sender unchanged, a number that lies [gap] places ahead of
    the expected one on the 16-bit ring, [0 < gap <= G], is counted early
    whether or not the ring wraps in between: [_numLost] grows by [gap],
    the number becomes the last received one, every skipped number is in
    the missing set afterwards, also when the set was pruned, and the set
    holds nothing but old entries and skipped numbers. *)
Theorem early_by_ring_distance (G : Z) (s : t) (incoming : Z) (senderUUID : QUuid) :
  senderUUID = _lastSenderUUID s → 0 < _numReceived s →
  is_quint16 (_lastReceived s) → is_quint16 incoming →
  2 * G < UINT16_RANGE →
  let expected := to_quint16 (_lastReceived s + 1) in
  let gap := to_quint16 (incoming - expected) in
  0 < gap <= G →
  let s' := sequenceNumberReceived G incoming senderUUID s in
  s' = set_missingSet (_missingSet s')
         (mk incoming (_missingSet s) (_numReceived s + 1)
            (_numUnreasonable s) (_numEarly s + 1) (_numLate s)
            (_numLost s + gap) (_numRecovered s) (_numDuplicate s)
            (_lastSenderUUID s)) ∧
  (∀ j, 0 <= j < gap → to_quint16 (expected + j) ∈ _missingSet s') ∧
  (∀ m, m ∈ _missingSet s' →
     m ∈ _missingSet s ∨ ∃ j, 0 <= j < gap ∧ m = to_quint16 (expected + j)).
Proof.
  intros Hs Hn Hlast Hinc HG expected gap Hgap s'. subst s'.
  rewrite (received_ahead G) by done. fold expected gap.
  set (s1 := set_numReceived (_numReceived s + 1) s).
  destruct (classify_early_facts G incoming (incoming - gap) s1)
    as (Hstate & Hin & Hout); try done; try lia.
  assert (Hwrap : ∀ j, to_quint16 (expected + j) = to_quint16 (incoming - gap + j)).
  { intros j. pose proof (to_quint16_range (_lastReceived s + 1)) as He.
    pose proof (to_quint16_difference incoming _ Hinc He) as Hd.
    fold expected gap in Hd, He. unfold to_quint16, is_quint16, UINT16_RANGE in *.
    destruct (Z.ltb_spec (incoming - expected) 0).
    - rewrite <- (Z.mod_add (incoming - gap + j) 1 65536) by lia.
      f_equal. lia.
    - f_equal. lia. }
  split; [| split].
  - rewrite Hstate at 1. subst s1. fields. f_equal. f_equal. lia.
  - intros j Hj. rewrite Hwrap. apply Hin. lia.
  - intros m Hm. destruct (Hout m Hm) as [Hold | (i & Hi & ->)]; [by left |].
    right. exists (i - (incoming - gap)). split; [lia |].
    rewrite Hwrap. f_equal. lia.
Qed.

Lemma early_by_ring_distance_witness :
  let s := mk 65530 ∅ 1 0 0 0 0 0 0 7%N in
  let s' := sequenceNumberReceived 1000 2 7%N s in
  s' = set_missingSet (_missingSet s') (mk 2 ∅ 2 0 1 0 7 0 0 7%N) ∧
  (∀ j, 0 <= j < 7 → to_quint16 (65531 + j) ∈ _missingSet s') ∧
  (∀ m, m ∈ _missingSet s' →
     m ∈ (∅ : gset Z) ∨ ∃ j, 0 <= j < 7 ∧ m = to_quint16 (65531 + j)).
Proof.
  refine (early_by_ring_distance 1000 (mk 65530 ∅ 1 0 0 0 0 0 0 7%N) 2 7%N
            _ _ _ _ _ _); by_computation.
Defined.

(** X2. With the sender unchanged, a number that lies at most [G] places
    behind the expected one on the ring is counted late whether or not the
    ring wraps in between, and the last received number stays: when the
    number is in the missing set it is removed, [_numLost] drops by one and
    [_numRecovered] grows by one; otherwise only [_numDuplicate] grows. *)
Theorem late_by_ring_distance (G : Z) (s : t) (incoming : Z) (senderUUID : QUuid) :
  senderUUID = _lastSenderUUID s → 0 < _numReceived s →
  is_quint16 (_lastReceived s) → is_quint16 incoming →
  2 * G < UINT16_RANGE →
  0 < to_quint16 (to_quint16 (_lastReceived s + 1) - incoming) <= G →
  sequenceNumberReceived G incoming senderUUID s
  = if decide (incoming ∈ _missingSet s)
    then mk (_lastReceived s) (_missingSet s ∖ {[incoming]})
           (_numReceived s + 1) (_numUnreasonable s) (_numEarly s)
           (_numLate s + 1) (_numLost s - 1) (_numRecovered s + 1)
           (_numDuplicate s) (_lastSenderUUID s)
    else mk (_lastReceived s) (_missingSet s)
           (_numReceived s + 1) (_numUnreasonable s) (_numEarly s)
           (_numLate s + 1) (_numLost s) (_numRecovered s)
           (_numDuplicate s + 1) (_lastSenderUUID s).
Proof.
  intros Hs Hn Hlast Hinc HG Hback.
  destruct (received_behind G incoming senderUUID s)
    as (incomingInt & expectedInt & Hle & ->); try done.
  case_decide as Hin.
  - by rewrite classify_recovered.
  - by rewrite classify_duplicate.
Qed.

Lemma late_by_ring_distance_witness :
  sequenceNumberReceived 1000 65533 7%N (mk 2 {[65533; 1]} 2 0 1 0 7 0 0 7%N)
  = mk 2 {[1]} 3 0 1 1 6 1 0 7%N.
Proof.
  refine (eq_trans
    (late_by_ring_distance 1000 (mk 2 {[65533; 1]} 2 0 1 0 7 0 0 7%N)
       65533 7%N _ _ _ _ _ _) _); by_computation.
Defined.

(** X3. With the sender unchanged, a number that lies more than [G] places
    ahead of the expected one and more than [G] places behind it on the
    ring is counted unreasonable and otherwise ignored. *)
Theorem unreasonable_by_ring_distance (G : Z) (s : t) (incoming : Z) (senderUUID : QUuid) :
  senderUUID = _lastSenderUUID s → 0 < _numReceived s →
  is_quint16 (_lastReceived s) → is_quint16 incoming →
  0 <= G →
  G < to_quint16 (incoming - to_quint16 (_lastReceived s + 1)) < UINT16_RANGE - G →
  sequenceNumberReceived G incoming senderUUID s
  = mk (_lastReceived s) (_missingSet s) (_numReceived s + 1)
       (_numUnreasonable s + 1) (_numEarly s) (_numLate s) (_numLost s)
       (_numRecovered s) (_numDuplicate s) (_lastSenderUUID s).
Proof.
  intros Hs Hn Hlast Hinc HG Hgap.
  pose proof (to_quint16_range (_lastReceived s + 1)) as He.
  pose proof (to_quint16_difference incoming _ Hinc He) as Hd.
  set (expected := to_quint16 (_lastReceived s + 1)) in *.
  rewrite received_out_of_order; rewrite ?expectedOf_later by done; [| done |].
  2:{ fold expected. intros Heq. rewrite <- Heq, Z.sub_diag in Hgap.
      change (to_quint16 0) with 0 in Hgap. lia. }
  fold expected. unfold outOfOrder. cbn zeta.
  unfold is_quint16, UINT16_RANGE in *.
  destruct (Z.ltb_spec (incoming - expected) 0);
    (destruct (Z.leb_spec (65536 - G) (Z.abs (incoming - expected))); [lia |]);
    (destruct (Z.ltb_spec G (Z.abs (incoming - expected))); [reflexivity | lia]).
Qed.

Lemma unreasonable_by_ring_distance_witness :
  sequenceNumberReceived 1000 40000 7%N (mk 65530 {[3]} 2 0 1 0 1 0 0 7%N)
  = mk 65530 {[3]} 3 1 1 0 1 0 0 7%N.
Proof.
  refine (unreasonable_by_ring_distance 1000
            (mk 65530 {[3]} 2 0 1 0 1 0 0 7%N) 40000 7%N _ _ _ _ _ _);
    by_computation.
Defined.

End StatsSteps.

Section StatsRuns.

Import SequenceNumberStats.

Variable G : Z.

(** Case analysis on the tests of [sequenceNumberReceived]. *)
Ltac branches :=
  repeat match goal with
  | |- context [if ?a <? ?b then _ else _] => destruct (Z.ltb_spec a b)
  | |- context [if ?a <=? ?b then _ else _] => destruct (Z.leb_spec a b)
  | |- context [if ?a =? ?b then _ else _] => destruct (Z.eqb_spec a b)
  | |- context [decide ?P] => destruct (decide P)
  end.

(** A run of in-order numbers from any state. *)
Lemma receiveAll_countUp n s senderUUID :
  senderUUID = _lastSenderUUID s → is_quint16 (_lastReceived s) →
  receiveAll G senderUUID (countUp n (to_quint16 (_lastReceived s + 1))) s
  = mk (to_quint16 (_lastReceived s + Z.of_nat n)) (_missingSet s)
       (_numReceived s + Z.of_nat n) (_numUnreasonable s) (_numEarly s)
       (_numLate s) (_numLost s) (_numRecovered s) (_numDuplicate s)
       (_lastSenderUUID s).
Proof.
  revert s. induction n as [| n IH]; intros s Hs Hlast.
  - cbn. rewrite Z.add_0_r, Z.add_0_r, to_quint16_small by done. by destruct s.
  - unfold receiveAll in *. cbn [countUp foldl].
    rewrite received_on_time; [| done | unfold expectedOf; by branches].
    pose proof (IH (set_lastReceived (to_quint16 (_lastReceived s + 1))
                      (set_numReceived (_numReceived s + 1) s))
                  Hs (to_quint16_range _)) as IH1.
    fields. rewrite IH1. f_equal; [| lia].
    unfold to_quint16. rewrite Zplus_mod_idemp_l. f_equal. lia.
Qed.

(** The counters add up after every call. *)
Lemma tallied_classify incoming incomingInt expectedInt s :
  _numLate s = _numRecovered s + _numDuplicate s →
  _numUnreasonable s + _numEarly s + _numLate s + 1 <= _numReceived s →
  _numEarly s <= _numLost s + _numRecovered s →
  tallied (classify G incoming incomingInt expectedInt s).
Proof.
  intros H1 H2 H3. unfold classify.
  destruct (Z.ltb_spec expectedInt incomingInt); fields.
  - match goal with |- tallied (if ?b then _ else _) => destruct b end;
      [rewrite pruneMissingSet_frame |]; unfold tallied; fields; lia.
  - case_decide; unfold tallied; fields; lia.
Qed.

Lemma tallied_received incoming senderUUID s :
  tallied s → tallied (sequenceNumberReceived G incoming senderUUID s).
Proof.
  intros Hs.
  assert (H1 : tallied (senderCheck senderUUID s)).
  { unfold senderCheck. case_decide; [| done]. unfold tallied. cbn. lia. }
  unfold sequenceNumberReceived. cbn zeta.
  destruct H1 as (H1 & H2 & H3). set (s1 := senderCheck senderUUID s) in *.
  destruct (incoming =? expectedOf incoming s1).
  - unfold tallied. fields. lia.
  - unfold outOfOrder. cbn zeta.
    repeat match goal with |- tallied (if ?b then _ else _) => destruct b end;
      try (apply tallied_classify; fields; lia).
    unfold tallied. fields. lia.
Qed.

(** The 16-bit fields stay in range after every call with a 16-bit
    number. *)
Lemma inRange_classify incoming incomingInt expectedInt s :
  is_quint16 incoming →
  (∀ m, m ∈ _missingSet s → is_quint16 m) →
  is_quint16 (_lastReceived s) →
  inRange (classify G incoming incomingInt expectedInt s).
Proof.
  intros Hinc Hset Hlast. unfold classify.
  destruct (Z.ltb_spec expectedInt incomingInt); fields.
  - assert (Hnew : ∀ m,
      m ∈ insertSkipped (Z.to_nat (incomingInt - expectedInt)) expectedInt
            (_missingSet s) → is_quint16 m).
    { intros m Hm. apply elem_of_insertSkipped in Hm.
      destruct Hm as [Hm | (i & _ & ->)]; [by apply Hset |].
      apply to_quint16_range. }
    match goal with |- inRange (if ?b then _ else _) => destruct b end.
    + split.
      * by rewrite pruneMissingSet_frame.
      * intros m Hm. apply pruneMissingSet_subseteq in Hm. by apply Hnew.
    + by split.
  - case_decide; split; fields; try done.
    intros m Hm. apply Hset. apply elem_of_difference in Hm. tauto.
Qed.

Lemma inRange_received incoming senderUUID s :
  is_quint16 incoming → inRange s →
  inRange (sequenceNumberReceived G incoming senderUUID s).
Proof.
  intros Hinc Hs.
  assert (H1 : inRange (senderCheck senderUUID s)).
  { unfold senderCheck. case_decide; [| done].
    destruct Hs as (Hlast & _). split; [done |]. cbn. set_solver. }
  unfold sequenceNumberReceived. cbn zeta.
  destruct H1 as (Hlast & Hset). set (s1 := senderCheck senderUUID s) in *.
  destruct (incoming =? expectedOf incoming s1); [by split |].
  unfold outOfOrder. cbn zeta.
  repeat match goal with |- inRange (if ?b then _ else _) => destruct b end;
    try by apply inRange_classify.
  by split.
Qed.

Lemma inRange_reachable s : reachable G s → inRange s.
Proof.
  induction 1 as [| s incoming senderUUID _ IH Hinc].
  - split; [by_computation | set_solver].
  - by apply inRange_received.
Qed.

(** A set of integers within an interval of [n] values has at most [n]
    entries. *)
Lemma size_within (X : gset Z) a n :
  0 <= n → (∀ m, m ∈ X → a <= m < a + n) → Z.of_nat (size X) <= n.
Proof.
  intros Hn HX.
  assert (Hsub : X ⊆ list_to_set (seqZ a n)).
  { intros m Hm. apply elem_of_list_to_set, elem_of_seqZ. by apply HX. }
  apply subseteq_size in Hsub.
  rewrite size_list_to_set, length_seqZ in Hsub by apply NoDup_seqZ. lia.
Qed.

(** After pruning, at most [G + 1] entries are left. *)
Lemma pruneMissingSet_bound s :
  0 <= G <= UINT16_RANGE → inRange s →
  Z.of_nat (size (_missingSet (pruneMissingSet G s))) <= G + 1.
Proof.
  intros HG (Hlast & Hset).
  set (kept := _missingSet (pruneMissingSet G s)).
  assert (Hkept : ∀ m, m ∈ kept →
    is_quint16 m ∧ ¬ discardedBySpec G (_lastReceived s) m).
  { intros m Hm. apply elem_of_pruneMissingSet in Hm as (Hm & Hd); [| done ..].
    split; [by apply Hset | done]. }
  unfold discardedBySpec, is_quint16, UINT16_RANGE in *. cbn zeta in Hkept.
  destruct (Z.le_gt_cases 0 (_lastReceived s - G)) as [Hc | Hc].
  - apply (size_within kept (_lastReceived s - G)); [lia |].
    intros m Hm. destruct (Hkept m Hm). lia.
  - rewrite <- (filter_union_complement_L (λ m, m <= _lastReceived s) kept kept).
    rewrite size_union by apply disjoint_filter_complement.
    pose proof (size_within (filter (λ m, m <= _lastReceived s) kept)
                  0 (_lastReceived s + 1)) as Hlow.
    pose proof (size_within (filter (λ m, ¬ m <= _lastReceived s) kept)
                  (_lastReceived s - G + 65536) (G - _lastReceived s)) as Hhigh.
    rewrite Nat2Z.inj_add.
    assert (Z.of_nat (size (filter (λ m, m <= _lastReceived s) kept))
            <= _lastReceived s + 1).
    { apply Hlow; [lia |]. intros m Hm. apply elem_of_filter in Hm as (? & Hm).
      destruct (Hkept m Hm). lia. }
    assert (Z.of_nat (size (filter (λ m, ¬ m <= _lastReceived s) kept))
            <= G - _lastReceived s).
    { apply Hhigh; [lia |]. intros m Hm. apply elem_of_filter in Hm as (? & Hm).
      destruct (Hkept m Hm). lia. }
    lia.
Qed.

Lemma bounded_received incoming senderUUID s :
  0 <= G <= UINT16_RANGE → is_quint16 incoming → inRange s →
  Z.of_nat (size (_missingSet s)) <= G + 1 →
  Z.of_nat (size (_missingSet (sequenceNumberReceived G incoming senderUUID s)))
  <= G + 1.
Proof.
  intros HG Hinc Hr Hsize.
  assert (H1 : inRange (senderCheck senderUUID s) ∧
               Z.of_nat (size (_missingSet (senderCheck senderUUID s))) <= G + 1).
  { unfold senderCheck. case_decide; [| done].
    destruct Hr as (Hlast & _). split; [split; [done | cbn; set_solver] |].
    cbn. rewrite size_empty. lia. }
  unfold sequenceNumberReceived. cbn zeta.
  destruct H1 as ((Hlast & Hset) & Hsz).
  set (s1 := senderCheck senderUUID s) in *.
  destruct (incoming =? expectedOf incoming s1); [done |].
  assert (Hclassify : ∀ incomingInt expectedInt,
    Z.of_nat (size (_missingSet (classify G incoming incomingInt expectedInt
      (set_numReceived (_numReceived s1 + 1) s1)))) <= G + 1).
  { intros incomingInt expectedInt. unfold classify.
    destruct (Z.ltb_spec expectedInt incomingInt); fields.
    - match goal with |- context [if ?a <? ?b then _ else _] =>
        destruct (Z.ltb_spec a b) end; [| fields; lia].
      apply pruneMissingSet_bound; [done |]. split; [done |]. fields.
      intros m Hm. apply elem_of_insertSkipped in Hm.
      destruct Hm as [Hm | (i & _ & ->)];
        [by apply Hset | apply to_quint16_range].
    - case_decide; fields; [| done].
      assert (Hsub : _missingSet s1 ∖ {[incoming]} ⊆ _missingSet s1).
      { intros m Hm. apply elem_of_difference in Hm. tauto. }
      apply subseteq_size in Hsub. lia. }
  unfold outOfOrder. cbn zeta.
  repeat match goal with |- context [if ?b then _ else _] => destruct b end;
    try apply Hclassify.
  done.
Qed.

End StatsRuns.

Section StatsInvariants.

Import SequenceNumberStats.

(** X4. From any state, a run of numbers from the stored sender that starts
    at the successor of the last received one and counts up, wrapping from
    65535 to 0, only adds its length to [_numReceived] and moves
    [_lastReceived] along; no loss, early or late packet is recorded. *)
Theorem in_order_run (G : Z) (n : nat) (s : t) (senderUUID : QUuid) :
  senderUUID = _lastSenderUUID s → is_quint16 (_lastReceived s) →
  receiveAll G senderUUID (countUp n (to_quint16 (_lastReceived s + 1))) s
  = mk (to_quint16 (_lastReceived s + Z.of_nat n)) (_missingSet s)
       (_numReceived s + Z.of_nat n) (_numUnreasonable s) (_numEarly s)
       (_numLate s) (_numLost s) (_numRecovered s) (_numDuplicate s)
       (_lastSenderUUID s).
Proof. intros Hs Hlast. by apply receiveAll_countUp. Qed.

Lemma in_order_run_witness :
  receiveAll 1000 7%N [65535; 0; 1; 2] (mk 65534 {[3]} 5 0 1 0 1 0 0 7%N)
  = mk 2 {[3]} 9 0 1 0 1 0 0 7%N.
Proof.
  refine (in_order_run 1000 4 (mk 65534 {[3]} 5 0 1 0 1 0 0 7%N) 7%N _ _);
    by_computation.
Defined.

(** X5. On a freshly constructed object, a run of [n + 1] numbers from one
    sender that starts anywhere and counts up, wrapping from 65535 to 0,
    ends with [n + 1] received, the last number as the last received one,
    every other counter at zero and an empty missing set. *)
Theorem in_order_from_create (G : Z) (n : nat) (start : Z) (senderUUID : QUuid) :
  is_quint16 start →
  receiveAll G senderUUID (countUp (S n) start) create
  = mk (to_quint16 (start + Z.of_nat n)) ∅ (Z.of_nat n + 1) 0 0 0 0 0 0 senderUUID.
Proof.
  intros Hstart. cbn [countUp]. unfold receiveAll. cbn [foldl].
  rewrite received_create.
  pose proof (receiveAll_countUp G n (mk start ∅ 1 0 0 0 0 0 0 senderUUID)
                senderUUID eq_refl Hstart) as Hrun.
  unfold receiveAll in Hrun. fields. rewrite Hrun. f_equal. lia.
Qed.

Lemma in_order_from_create_witness :
  receiveAll 1000 7%N [65534; 65535; 0; 1] create
  = mk 1 ∅ 4 0 0 0 0 0 0 7%N.
Proof.
  refine (in_order_from_create 1000 3 65534 7%N _); by_computation.
Defined.

(** X6. At every state reachable from a freshly constructed object the
    counters add up: [_numLate = _numRecovered + _numDuplicate],
    [_numUnreasonable + _numEarly + _numLate <= _numReceived] and
    [_numEarly <= _numLost + _numRecovered]. *)
Theorem counters_tally (G : Z) (s : t) : reachable G s → tallied s.
Proof.
  induction 1 as [| s incoming senderUUID _ IH _].
  - unfold tallied. cbn. lia.
  - by apply tallied_received.
Qed.

Lemma counters_tally_witness :
  tallied (receiveAll 1000 7%N [1; 2; 5; 3; 3; 40000] create).
Proof.
  apply (counters_tally 1000).
  apply reachable_receiveAll; [| constructor].
  repeat constructor; by_computation.
Defined.

(** X8. For a constant between 0 and 65536, the missing set never holds
    more than [MAX_REASONABLE_SEQUENCE_GAP + 1] entries at a state reachable
    from a freshly constructed object. *)
Theorem missing_set_bounded (G : Z) (s : t) :
  0 <= G <= UINT16_RANGE → reachable G s →
  Z.of_nat (size (_missingSet s)) <= G + 1.
Proof.
  intros HG. induction 1 as [| s incoming senderUUID Hr IH Hinc].
  - cbn. rewrite size_empty. lia.
  - apply bounded_received; try done. by apply (inRange_reachable G).
Qed.

Lemma missing_set_bounded_witness :
  Z.of_nat (size (_missingSet (receiveAll 3 7%N [10; 13; 16; 19] create)))
  <= 3 + 1.
Proof.
  apply (missing_set_bounded 3); [by_computation |].
  apply reachable_receiveAll; [| constructor].
  repeat constructor; by_computation.
Defined.

(** X9. Pruning twice is pruning once. *)
Theorem prune_idempotent (G : Z) (s : t) :
  pruneMissingSet G (pruneMissingSet G s) = pruneMissingSet G s.
Proof.
  unfold pruneMissingSet.
  destruct (0 <=? _lastReceived s - G) eqn:Hc; fields; rewrite Hc;
    unfold set_missingSet; fields; f_equal;
    apply set_eq; intros m; rewrite !elem_of_filter; tauto.
Qed.

(** X10. After [reset()], the next number from the stored sender is taken
    as the baseline whatever it is and whatever the object held. *)
Theorem reset_then_received (G : Z) (s : t) (incoming : Z) (senderUUID : QUuid) :
  senderUUID = _lastSenderUUID s →
  sequenceNumberReceived G incoming senderUUID (reset s)
  = mk incoming ∅ 1 0 0 0 0 0 0 senderUUID.
Proof.
  intros ->. rewrite received_on_time; [reflexivity | reflexivity |].
  unfold expectedOf. cbn. done.
Qed.

Lemma reset_then_received_witness :
  sequenceNumberReceived 1000 40000 7%N (reset (mk 5 {[3; 4]} 3 0 1 0 2 0 0 7%N))
  = mk 40000 ∅ 1 0 0 0 0 0 0 7%N.
Proof.
  refine (reset_then_received 1000 (mk 5 {[3; 4]} 3 0 1 0 2 0 0 7%N)
            40000 7%N _); by_computation.
Defined.

(** X11. Two packets swapped in transit: when the number after the
    expected one arrives first and the expected one right after it, both
    from the stored sender, [_numLost] ends where it was; one early, one
    late and one recovered packet are counted, the later number is the last
    received one, and the missing set holds nothing it did not hold before
    and not the number that came late. *)
Theorem swapped_pair_recovered (G : Z) (s : t) (senderUUID : QUuid) :
  senderUUID = _lastSenderUUID s → 0 < _numReceived s →
  is_quint16 (_lastReceived s) →
  2 <= G → 2 * G < UINT16_RANGE →
  let first := to_quint16 (_lastReceived s + 1) in
  let second := to_quint16 (_lastReceived s + 2) in
  ∃ missing : gset Z,
    receiveAll G senderUUID [second; first] s
    = mk second missing (_numReceived s + 2) (_numUnreasonable s)
         (_numEarly s + 1) (_numLate s + 1) (_numLost s)
         (_numRecovered s + 1) (_numDuplicate s) (_lastSenderUUID s) ∧
    (first ∉ missing) ∧ (missing ⊆ _missingSet s).
Proof.
  intros Hs Hn Hlast HG HG2 first second.
  pose proof (to_quint16_range (_lastReceived s + 1)) as Hfirst.
  pose proof (to_quint16_range (_lastReceived s + 2)) as Hsecond.
  fold first in Hfirst. fold second in Hsecond.
  assert (Hgap : to_quint16 (second - first) = 1).
  { subst first second. unfold to_quint16, UINT16_RANGE.
    Z.div_mod_to_equations. lia. }
  assert (Hprev : to_quint16 (second - 1) = first).
  { subst first second. unfold to_quint16, UINT16_RANGE.
    Z.div_mod_to_equations. lia. }
  assert (Hback : to_quint16 (to_quint16 (second + 1) - first) = 2).
  { subst first second. unfold to_quint16, UINT16_RANGE.
    Z.div_mod_to_equations. lia. }
  unfold receiveAll. cbn [foldl].
  rewrite (received_ahead G second) by (try done; fold first; lia).
  fold first. rewrite Hgap.
  set (s0 := set_numReceived (_numReceived s + 1) s).
  destruct (classify_early_facts G second (second - 1) s0)
    as (Hstate & Hin & Hout); try done; try lia.
  set (s1 := classify G second second (second - 1) s0) in *.
  assert (Hfirst_in : first ∈ _missingSet s1).
  { rewrite <- Hprev. apply Hin. lia. }
  assert (Hlast1 : _lastReceived s1 = second) by (by rewrite Hstate).
  assert (Hsender1 : _lastSenderUUID s1 = _lastSenderUUID s) by (by rewrite Hstate).
  assert (Hrecv1 : _numReceived s1 = _numReceived s + 1) by (by rewrite Hstate).
  destruct (received_behind G first senderUUID s1)
    as (incomingInt & expectedInt & Hle & ->); try done; try congruence.
  { lia. } { rewrite Hlast1, Hback. lia. }
  rewrite classify_recovered by done.
  exists (_missingSet s1 ∖ {[first]}). split; [| split].
  - rewrite Hstate. subst s0. fields. f_equal; lia.
  - intros Hm. apply elem_of_difference in Hm as (_ & Hm).
    apply Hm. by apply elem_of_singleton.
  - intros m Hm. apply elem_of_difference in Hm as (Hm & Hne).
    destruct (Hout m Hm) as [Hold | (i & Hi & ->)]; [done |].
    exfalso. apply Hne. apply elem_of_singleton.
    replace i with (second - 1) by lia. done.
Qed.

Lemma swapped_pair_recovered_witness :
  ∃ missing : gset Z,
    receiveAll 1000 7%N [0; 65535] (mk 65534 {[65000]} 5 0 1 0 1 0 0 7%N)
    = mk 0 missing 7 0 2 1 1 1 0 7%N ∧
    (65535 ∉ missing) ∧ (missing ⊆ ({[65000]} : gset Z)).
Proof.
  refine (swapped_pair_recovered 1000 (mk 65534 {[65000]} 5 0 1 0 1 0 0 7%N)
            7%N _ _ _ _ _); by_computation.
Defined.

End StatsInvariants.

(** * Further properties of SentPacketHistory *)

Section HistoryMore.

Import SentPacketHistory.

(** On a well-formed history [packetSent] writes within the vector. *)
Lemma packetSent_state sequenceNumber packet h :
  wellFormed h →
  0 <= nextSlot h < size h ∧
  packetSent sequenceNumber packet h
  = Done (mk (<[Z.to_nat (nextSlot h) := packet]> (_sentPackets h))
             (nextSlot h)
             (Z.min (_numExistingPackets h + 1) (size h))
             sequenceNumber).
Proof.
  intros (Hat & Hcount & _).
  assert (Hnext : 0 <= nextSlot h < size h).
  { unfold nextSlot. destruct (Z.eqb_spec (_newestPacketAt h) (size h - 1)); lia. }
  split; [done |]. unfold packetSent. fold (nextSlot h).
  destruct (Z.leb_spec 0 (nextSlot h)); [| lia].
  destruct (Z.ltb_spec (nextSlot h) (size h)); [| lia].
  cbn [andb]. do 2 f_equal.
  destruct (Z.ltb_spec (_numExistingPackets h) (size h)); lia.
Qed.

(** One slot back from the slot just written is the slot written before. *)
Lemma slotBack_nextSlot h steps :
  wellFormed h → 0 <= steps → steps + 1 < size h →
  slotBack (size h) (nextSlot h) (steps + 1)
  = slotBack (size h) (_newestPacketAt h) steps ∧
  slotBack (size h) (nextSlot h) (steps + 1) ≠ nextSlot h.
Proof.
  intros (Hat & _ & _) H0 Hsteps. rewrite !slotBack_cases by
    (unfold nextSlot; destruct (Z.eqb_spec (_newestPacketAt h) (size h - 1)); lia).
  unfold nextSlot. destruct (Z.eqb_spec (_newestPacketAt h) (size h - 1));
    repeat match goal with |- context [?a <? ?b] =>
      destruct (Z.ltb_spec a b) end; lia.
Qed.

(** Every history built by the constructor and [packetSent] calls holds the
    payloads of the calls by position, and is well formed. *)
Lemma sentSoFar_records C hist h :
  0 < C → sentSoFar C hist h → records C hist h.
Proof.
  intros HC. induction 1 as [| hist h n p h' _ IH Hq Hsent].
  - by apply records_create.
  - destruct (records_packetSent C hist h n p HC IH) as (h1 & Hsent1 & Hr).
    rewrite Hsent in Hsent1. by injection Hsent1 as ->.
Qed.

Lemma sentSoFar_wellFormed C hist h :
  0 < C → sentSoFar C hist h → wellFormed h.
Proof.
  intros HC Hs. pose proof (sentSoFar_records C hist h HC Hs) as Hr.
  apply (records_wellFormed C hist h HC Hr).
  destruct Hr as (_ & _ & _ & _ & ->).
  destruct Hs as [| hist h n p h' _ Hq _]; [by_computation | done].
Qed.

End HistoryMore.

Section HistoryExtras.

Import SentPacketHistory.

Local Open Scope string_scope.
Local Open Scope Z_scope.

(** X12. Lookups go by position, not by the numbers recorded: in a history
    of [C > 0] slots built by any [packetSent] calls, consecutive or not,
    the live count is the number of calls capped at [C], and for every ring
    offset [k] the lookup of the newest number minus [k] returns the
    payload of the call [k] places before the newest when [k] is below the
    live count, and [NULL] otherwise. *)
Theorem lookup_by_position (C : Z) (hist : list (Z * QByteArray)) (h : t) (k : Z) :
  0 < C → sentSoFar C hist h → 0 <= k < UINT16_RANGE →
  _numExistingPackets h = Z.min (Z.of_nat (length hist)) C ∧
  getPacket (to_quint16 (_newestSequenceNumber h - k)) h
  = Done (if k <? _numExistingPackets h
          then snd <$> hist !! Z.to_nat k else None).
Proof.
  intros HC Hs Hk.
  pose proof (sentSoFar_records C hist h HC Hs) as Hr.
  pose proof (sentSoFar_wellFormed C hist h HC Hs) as Hwf.
  destruct Hr as (Hsize & Hat & Hcount & Hslots & _). split; [done |].
  pose proof (ringDistance_back (_newestSequenceNumber h) k Hk) as Hd.
  pose proof (to_quint16_range (_newestSequenceNumber h - k)) as Hq.
  destruct (Z.ltb_spec k (_numExistingPackets h)) as [Hlive | Hstale].
  - destruct (getPacket_live _ h Hwf Hq) as (packet & Hslot & ->); [lia |].
    rewrite Hd, Hsize, Hslots in Hslot by lia. by rewrite Hslot.
  - apply getPacket_stale; [apply Hwf | done | lia].
Qed.

Lemma lookup_by_position_witness :
  let h := mk ["c"; "a"; "b"] 0 3 9 in
  _numExistingPackets h = Z.min 3 3 ∧
  getPacket (to_quint16 (9 - 1)) h = Done (Some "b").
Proof.
  refine (lookup_by_position 3 [(9, "c"); (5, "b"); (1, "a")]
            (mk ["c"; "a"; "b"] 0 3 9) 1 _ _ _); [by_computation | | by_computation].
  apply (sentSoFar_packetSent 3 _ (mk [""; "a"; "b"] 2 2 5)); [| by_computation ..].
  apply (sentSoFar_packetSent 3 _ (mk [""; "a"; ""] 1 1 1)); [| by_computation ..].
  apply (sentSoFar_packetSent 3 _ (create 3)); [| by_computation ..].
  constructor.
Defined.

(** X13. On a well-formed history a [packetSent] call with any 16-bit
    number, expected or not, stays within the vector and is followed by a
    lookup of that number that returns the packet just stored. *)
Theorem newest_round_trip (h : t) (sequenceNumber : Z) (packet : QByteArray) :
  wellFormed h → is_quint16 sequenceNumber →
  ∃ h', packetSent sequenceNumber packet h = Done h' ∧
        getPacket sequenceNumber h' = Done (Some packet).
Proof.
  intros Hwf Hq. pose proof Hwf as (Hat & Hcount & _).
  destruct (packetSent_state sequenceNumber packet h Hwf) as (Hnext & Hsent).
  eexists. split; [exact Hsent |].
  unfold getPacket.
  cbn [_newestSequenceNumber _numExistingPackets _newestPacketAt _sentPackets].
  rewrite Z.sub_diag. cbn [Z.ltb Z.compare].
  destruct (Z.leb_spec (Z.min (_numExistingPackets h + 1) (size h)) 0); [lia |].
  rewrite Z.sub_0_r.
  destruct (Z.ltb_spec (nextSlot h) 0); [lia |].
  destruct (Z.leb_spec 0 (nextSlot h)); [| lia].
  rewrite list_lookup_insert_eq; [done |]. unfold size in *. lia.
Qed.

Lemma newest_round_trip_witness :
  ∃ h', packetSent 700 "z" (mk ["c"; "d"; "b"] 1 3 4) = Done h' ∧
        getPacket 700 h' = Done (Some "z").
Proof.
  refine (newest_round_trip (mk ["c"; "d"; "b"] 1 3 4) 700 "z" _ _);
    by_computation.
Defined.

(** X14. On a well-formed history a [packetSent] call with any 16-bit
    number, expected or not, stays within the vector and leaves a
    well-formed history of the same size, with the number passed as the
    newest one and the live count one higher, capped at the size. *)
Theorem packetSent_keeps_wellFormed (h : t) (sequenceNumber : Z) (packet : QByteArray) :
  wellFormed h → is_quint16 sequenceNumber →
  ∃ h', packetSent sequenceNumber packet h = Done h' ∧
        wellFormed h' ∧ size h' = size h ∧
        _newestSequenceNumber h' = sequenceNumber ∧
        _numExistingPackets h' = Z.min (_numExistingPackets h + 1) (size h).
Proof.
  intros Hwf Hq. pose proof Hwf as (Hat & Hcount & _).
  destruct (packetSent_state sequenceNumber packet h Hwf) as (Hnext & Hsent).
  eexists. split; [exact Hsent |].
  unfold wellFormed, size in *.
  cbn [_newestSequenceNumber _numExistingPackets _newestPacketAt _sentPackets].
  rewrite length_insert. repeat split; try lia; apply Hq.
Qed.

Lemma packetSent_keeps_wellFormed_witness :
  ∃ h', packetSent 700 "z" (mk ["c"; "d"; "b"] 1 3 4) = Done h' ∧
        wellFormed h' ∧ size h' = 3 ∧
        _newestSequenceNumber h' = 700 ∧
        _numExistingPackets h' = Z.min (3 + 1) 3.
Proof.
  refine (packetSent_keeps_wellFormed (mk ["c"; "d"; "b"] 1 3 4) 700 "z" _ _);
    by_computation.
Defined.

(** X15. On a well-formed history a lookup never reads outside the vector,
    and it returns [NULL] exactly when the ring distance from the newest
    number to the number asked for is at least the live count. *)
Theorem null_iff_beyond_count (h : t) (sequenceNumber : Z) :
  wellFormed h → is_quint16 sequenceNumber →
  getPacket sequenceNumber h ≠ IndexOutOfRange ∧
  (getPacket sequenceNumber h = Done None ↔
   _numExistingPackets h <= ringDistance (_newestSequenceNumber h) sequenceNumber).
Proof.
  intros Hwf Hq.
  destruct (Z.le_gt_cases (_numExistingPackets h)
              (ringDistance (_newestSequenceNumber h) sequenceNumber))
    as [Hstale | Hlive].
  - rewrite getPacket_stale by (done || apply Hwf). by split.
  - destruct (getPacket_live sequenceNumber h Hwf Hq) as (packet & _ & ->);
      [lia |].
    split; [done |]. split; [done | lia].
Qed.

Lemma null_iff_beyond_count_witness :
  getPacket 1 (mk ["c"; "d"; "b"] 1 3 4) ≠ IndexOutOfRange ∧
  (getPacket 1 (mk ["c"; "d"; "b"] 1 3 4) = Done None ↔
   3 <= ringDistance 4 1).
Proof.
  refine (null_iff_beyond_count (mk ["c"; "d"; "b"] 1 3 4) 1 _ _);
    by_computation.
Defined.

(** X16. A newly constructed history, of any size, returns [NULL] for
    every 16-bit number. *)
Theorem new_history_is_empty (C : Z) (sequenceNumber : Z) :
  is_quint16 sequenceNumber →
  getPacket sequenceNumber (create C) = Done None.
Proof.
  intros Hq. apply getPacket_stale; [by_computation | done |].
  cbn. apply Z.mod_pos_bound. by_computation.
Qed.

Lemma new_history_is_empty_witness :
  getPacket 65535 (create 3) = Done None.
Proof. refine (new_history_is_empty 3 65535 _); by_computation. Defined.

(** X17. A history constructed with no slot cannot record anything: the
    first [packetSent] call writes outside the vector. *)
Theorem no_slot_no_record (C : Z) (sequenceNumber : Z) (packet : QByteArray) :
  C <= 0 → packetSent sequenceNumber packet (create C) = IndexOutOfRange.
Proof.
  intros HC. unfold packetSent, create, size.
  cbn [_sentPackets _newestPacketAt _numExistingPackets].
  rewrite length_replicate. replace (Z.to_nat C) with 0%nat by lia. done.
Qed.

Lemma no_slot_no_record_witness :
  packetSent 0 "a" (create 0) = IndexOutOfRange.
Proof. refine (no_slot_no_record 0 0 "a" _); by_computation. Defined.

(** X18. Recording the next number leaves the earlier lookups as they
    were: after [packetSent] with the successor of the newest number, a
    number that was live, at ring distance [d] with [d + 1] below both the
    size and 65536, is still returned with the same payload. *)
Theorem older_packets_survive (h : t) (packet : QByteArray) (sequenceNumber : Z) :
  wellFormed h → is_quint16 sequenceNumber →
  let d := ringDistance (_newestSequenceNumber h) sequenceNumber in
  d < _numExistingPackets h → d + 1 < size h → d + 1 < UINT16_RANGE →
  ∃ h', packetSent (to_quint16 (_newestSequenceNumber h + 1)) packet h = Done h' ∧
        getPacket sequenceNumber h' = getPacket sequenceNumber h ∧
        getPacket sequenceNumber h ≠ Done None.
Proof.
  intros Hwf Hq d Hlive Hsize Hring.
  pose proof Hwf as (Hat & Hcount & Hnewest).
  assert (Hd0 : 0 <= d) by (apply Z.mod_pos_bound; by_computation).
  destruct (packetSent_state (to_quint16 (_newestSequenceNumber h + 1)) packet h Hwf)
    as (Hnext & Hsent).
  destruct (getPacket_live sequenceNumber h Hwf Hq Hlive) as (old & Hslot & Hget).
  fold d in Hslot.
  eexists. split; [exact Hsent |]. rewrite Hget. split; [| done].
  set (h' := mk _ _ _ _).
  assert (Hwf' : wellFormed h').
  { unfold wellFormed, size in *. subst h'.
    cbn [_newestSequenceNumber _numExistingPackets _newestPacketAt _sentPackets].
    rewrite length_insert. repeat split; try lia; apply to_quint16_range. }
  assert (Hd' : ringDistance (_newestSequenceNumber h') sequenceNumber = d + 1).
  { subst h' d. cbn [_newestSequenceNumber].
    unfold ringDistance, to_quint16, is_quint16, UINT16_RANGE in *.
    revert Hring. Z.div_mod_to_equations. lia. }
  destruct (getPacket_live sequenceNumber h' Hwf' Hq) as (new & Hslot' & ->).
  { rewrite Hd'. subst h'. cbn [_numExistingPackets]. lia. }
  rewrite Hd' in Hslot'.
  assert (Hsize' : size h' = size h).
  { unfold size. subst h'. cbn [_sentPackets]. by rewrite length_insert. }
  rewrite Hsize' in Hslot'. subst h'. cbn [_newestPacketAt _sentPackets] in Hslot'.
  destruct (slotBack_nextSlot h d Hwf Hd0 Hsize) as (Hsame & Hother).
  pose proof (slotBack_range (size h) (nextSlot h) (d + 1)).
  rewrite list_lookup_insert_ne, Hsame in Hslot' by lia. congruence.
Qed.

Lemma older_packets_survive_witness :
  ∃ h', packetSent (to_quint16 (4 + 1)) "e" (mk ["c"; "d"; "b"] 1 3 4) = Done h' ∧
        getPacket 3 h' = getPacket 3 (mk ["c"; "d"; "b"] 1 3 4) ∧
        getPacket 3 (mk ["c"; "d"; "b"] 1 3 4) ≠ Done None.
Proof.
  refine (older_packets_survive (mk ["c"; "d"; "b"] 1 3 4) "e" 3 _ _ _ _ _);
    by_computation.
Defined.

(** X19. Once the history is full, recording the next number evicts the
    oldest one: in a well-formed history with every slot live and fewer than
    65536 slots, after [packetSent] with the successor of the newest number
    the lookup of the number at ring distance [size - 1] returns [NULL]. *)
Theorem oldest_is_evicted (h : t) (packet : QByteArray) (sequenceNumber : Z) :
  wellFormed h → is_quint16 sequenceNumber →
  _numExistingPackets h = size h → size h < UINT16_RANGE →
  ringDistance (_newestSequenceNumber h) sequenceNumber = size h - 1 →
  ∃ h', packetSent (to_quint16 (_newestSequenceNumber h + 1)) packet h = Done h' ∧
        getPacket sequenceNumber h ≠ Done None ∧
        getPacket sequenceNumber h' = Done None.
Proof.
  intros Hwf Hq Hfull Hsize Hd.
  pose proof Hwf as (Hat & Hcount & Hnewest).
  destruct (packetSent_state (to_quint16 (_newestSequenceNumber h + 1)) packet h Hwf)
    as (Hnext & Hsent).
  eexists. split; [exact Hsent |]. split.
  - destruct (getPacket_live sequenceNumber h Hwf Hq) as (old & _ & ->); [lia | done].
  - apply getPacket_stale; cbn [_newestSequenceNumber _numExistingPackets];
      [apply to_quint16_range | done |].
    assert (ringDistance (to_quint16 (_newestSequenceNumber h + 1)) sequenceNumber
            = size h) as ->; [| lia].
    unfold ringDistance, to_quint16, is_quint16, UINT16_RANGE in *.
    revert Hd. Z.div_mod_to_equations. lia.
Qed.

Lemma oldest_is_evicted_witness :
  ∃ h', packetSent (to_quint16 (4 + 1)) "e" (mk ["c"; "d"; "b"] 1 3 4) = Done h' ∧
        getPacket 2 (mk ["c"; "d"; "b"] 1 3 4) ≠ Done None ∧
        getPacket 2 h' = Done None.
Proof.
  refine (oldest_is_evicted (mk ["c"; "d"; "b"] 1 3 4) "e" 2 _ _ _ _ _);
    by_computation.
Defined.

End HistoryExtras.
